(** * Option-strategy regression algorithms: contract selection and
      position verification

    Shallow embedding of
    [Algorithm.Python/LongAndShortStraddleStrategiesAlgorithm.py] and
    [Algorithm.Python/LongAndShortStrangleStrategiesAlgorithm.py].

    Strikes, prices and quantities are decimals in the source; they are
    represented here as integers counted in the smallest price unit, and an
    expiry as an integer count of ticks.  Only comparison, subtraction and
    absolute value are used on them. *)

From Stdlib Require Import String ZArith List Bool Lia Permutation Sorted.
Import ListNotations.
Local Open Scope Z_scope.

(** ** Data model *)

Inductive OptionRight : Type := Call | Put.

Definition OptionRight_eqb (a b : OptionRight) : bool :=
  match a, b with
  | Call, Call | Put, Put => true
  | _, _ => false
  end.

Record Contract : Type := mkContract {
  Right : OptionRight;
  Strike : Z;
  Expiry : Z
}.

(** ** Python built-ins used by the selection code *)

Section Builtins.
Context {A : Type}.

(** [sorted] is a stable sort.  A stable sort is determined by its
    comparison, so it is written as an insertion sort: folding from the
    right, an element is put in front of the first element it does not
    exceed, hence in front of every later element with an equal key. *)
Fixpoint insert_by (le : A -> A -> bool) (x : A) (l : list A) : list A :=
  match l with
  | [] => [x]
  | y :: l' => if le x y then x :: l else y :: insert_by le x l'
  end.

Definition stable_sort (le : A -> A -> bool) (l : list A) : list A :=
  fold_right (insert_by le) [] l.

(** [sorted(l, key=k)] *)
Definition sorted (key : A -> Z) (l : list A) : list A :=
  stable_sort (fun x y => key x <=? key y) l.

(** [sorted(l, key=k, reverse=True)]: descending keys, and elements with
    equal keys keep their original order. *)
Definition sorted_reverse (key : A -> Z) (l : list A) : list A :=
  stable_sort (fun x y => key y <=? key x) l.

(** [itertools.groupby(l, key)]: the maximal runs of consecutive elements
    with equal keys, each with its key. *)
Fixpoint groupby {K : Type} (K_eqb : K -> K -> bool) (key : A -> K)
    (l : list A) : list (K * list A) :=
  match l with
  | [] => []
  | x :: l' =>
      match groupby K_eqb key l' with
      | (k, g) :: gs =>
          if K_eqb (key x) k then (k, x :: g) :: gs
          else (key x, [x]) :: (k, g) :: gs
      | [] => [(key x, [x])]
      end
  end.

(** [any(p(x) for x in l)] is [existsb p l]; [next(iter(l), d)] *)
Definition next (l : list A) (d : A) : A :=
  match l with
  | [] => d
  | x :: _ => x
  end.
End Builtins.

(** ** Contract selection ([OnData], not invested) *)

Definition is_call (c : Contract) : bool := OptionRight_eqb (Right c) Call.
Definition is_put (c : Contract) : bool := OptionRight_eqb (Right c) Put.

(** [abs(chain.Underlying.Price - x.Strike)] *)
Definition distance (price : Z) (x : Contract) : Z := Z.abs (price - Strike x).

(** Lines 39-40 of both files. *)
Definition contracts (price : Z) (chain : list Contract) : list Contract :=
  sorted_reverse Expiry (sorted (distance price) chain).

Definition pair_eqb (a b : Z * Z) : bool :=
  (fst a =? fst b) && (snd a =? snd b).

Definition strike_expiry (x : Contract) : Z * Z := (Strike x, Expiry x).

Module Straddle.

Definition has_both (group : list Contract) : bool :=
  existsb is_call group && existsb is_put group.

(** Line 41. *)
Definition groupedContracts (price : Z) (chain : list Contract)
    : list (list Contract) :=
  map snd (groupby pair_eqb strike_expiry (contracts price chain)).

(** Lines 42-46: the first group holding a call and a put, or [[]]. *)
Definition selected_group (price : Z) (chain : list Contract)
    : list Contract :=
  next (filter has_both (groupedContracts price chain)) [].

(** Lines 48-54: the strike and expiry handed to
    [OptionStrategies.Straddle], [None] when the method returns early. *)
Definition select (price : Z) (chain : list Contract) : option (Z * Z) :=
  match selected_group price chain with
  | [] => None
  | contract :: _ => Some (Strike contract, Expiry contract)
  end.

End Straddle.

Module Strangle.

(** Line 41. *)
Definition groupedContracts (price : Z) (chain : list Contract)
    : list (list Contract) :=
  map snd (groupby Z.eqb Expiry (contracts price chain)).

Definition callContracts (group : list Contract) : list Contract :=
  sorted_reverse Strike (filter is_call group).

Definition putContracts (group : list Contract) : list Contract :=
  sorted Strike (filter is_put group).

(** Lines 45-54: the loop over the groups, left at the first group whose
    first call is struck above its first put. *)
Fixpoint scan (groups : list (list Contract))
    : option (Contract * Contract) :=
  match groups with
  | [] => None
  | group :: rest =>
      match callContracts group, putContracts group with
      | c :: _, p :: _ =>
          if Strike c >? Strike p then Some (c, p) else scan rest
      | _, _ => scan rest
      end
  end.

(** The [(callContract, putContract)] of line 56, [None] when either is
    still [None]. *)
Definition select (price : Z) (chain : list Contract)
    : option (Contract * Contract) :=
  scan (groupedContracts price chain).

End Strangle.

(** ** Position verification ([OnData], invested) *)

(** Raising an exception ends the method: a small error monad. *)
Inductive result (E A : Type) : Type :=
| Ok (a : A)
| Raise (e : E).
Arguments Ok {E A} a.
Arguments Raise {E A} e.

Definition bind {E A B : Type} (m : result E A) (k : A -> result E B)
    : result E B :=
  match m with
  | Ok a => k a
  | Raise e => Raise e
  end.

Notation "x <- m ;; k" := (bind m (fun x => k))
  (at level 61, m at next level, right associativity).
Notation "m ;; k" := (bind m (fun _ => k))
  (at level 61, right associativity).

(** [if not cond: raise Exception(e)] *)
Definition check {E : Type} (cond : bool) (e : E) : result E unit :=
  if cond then Ok tt else Raise e.

(** [if x is None: raise Exception(e)] *)
Definition require {E A : Type} (x : option A) (e : E) : result E A :=
  match x with
  | Some a => Ok a
  | None => Raise e
  end.

Record Position : Type := mkPosition {
  Symbol : Contract;
  Quantity : Z
}.

(** A position group with the name of the type of its buying power model. *)
Record PositionGroup : Type := mkPositionGroup {
  BuyingPowerModel : string;
  Positions : list Position
}.

Definition OptionStrategyPositionGroupBuyingPowerModel : string :=
  "OptionStrategyPositionGroupBuyingPowerModel".

(** One constructor per [raise] of the verification block, with the data
    its message prints. *)
Inductive Failure : Type :=
| MISMATCHED_ACCOUNTING_MODEL (actual : string)
| UNEXPECTED_LEG_COUNT (actual : nat)
| MISSING_LEG (side : OptionRight)
| QUANTITY_MISMATCH (side : OptionRight) (expected actual : Z).

Definition has_right (side : OptionRight) (position : Position) : bool :=
  OptionRight_eqb (Right (Symbol position)) side.

(** Lines 60-84 of the straddle file and 65-89 of the strangle file, which
    are the same text.  The two expected quantities are local constants of
    the source; they are parameters here and [verify] fixes them. *)
Definition verify_expected (expectedCallPositionQuantity
    expectedPutPositionQuantity : Z) (positionGroup : PositionGroup)
    : result Failure unit :=
  let buyingPowerModel := BuyingPowerModel positionGroup in
  check (String.eqb buyingPowerModel
           OptionStrategyPositionGroupBuyingPowerModel)
        (MISMATCHED_ACCOUNTING_MODEL buyingPowerModel) ;;
  let positions := Positions positionGroup in
  check (Nat.eqb (length positions) 2)
        (UNEXPECTED_LEG_COUNT (length positions)) ;;
  callPosition <- require (find (has_right Call) positions)
                          (MISSING_LEG Call) ;;
  putPosition <- require (find (has_right Put) positions)
                         (MISSING_LEG Put) ;;
  check (Quantity callPosition =? expectedCallPositionQuantity)
        (QUANTITY_MISMATCH Call expectedCallPositionQuantity
           (Quantity callPosition)) ;;
  check (Quantity putPosition =? expectedPutPositionQuantity)
        (QUANTITY_MISMATCH Put expectedPutPositionQuantity
           (Quantity putPosition)).

Definition verify (positionGroup : PositionGroup) : result Failure unit :=
  verify_expected 2 2 positionGroup.

(** Every check evaluated on its own, in the order of the source, with the
    failures of all of them collected: the reading in which nothing stops at
    the first failure.  A quantity is compared when its leg is found. *)
Definition violations (expectedCall expectedPut : Z) (g : PositionGroup)
    : list Failure :=
  (if String.eqb (BuyingPowerModel g)
                 OptionStrategyPositionGroupBuyingPowerModel
   then [] else [MISMATCHED_ACCOUNTING_MODEL (BuyingPowerModel g)]) ++
  (if Nat.eqb (length (Positions g)) 2
   then [] else [UNEXPECTED_LEG_COUNT (length (Positions g))]) ++
  (match find (has_right Call) (Positions g) with
   | Some _ => []
   | None => [MISSING_LEG Call]
   end) ++
  (match find (has_right Put) (Positions g) with
   | Some _ => []
   | None => [MISSING_LEG Put]
   end) ++
  (match find (has_right Call) (Positions g) with
   | Some c => if Quantity c =? expectedCall then []
               else [QUANTITY_MISMATCH Call expectedCall (Quantity c)]
   | None => []
   end) ++
  (match find (has_right Put) (Positions g) with
   | Some p => if Quantity p =? expectedPut then []
               else [QUANTITY_MISMATCH Put expectedPut (Quantity p)]
   | None => []
   end).

(** ** End of the run ([OnEndOfAlgorithm]) *)

Inductive OrderStatus : Type :=
| New | Submitted | PartiallyFilled | Filled | Canceled
| NoStatus | Invalid | CancelPending | UpdateSubmitted.

Definition is_Filled (s : OrderStatus) : bool :=
  match s with
  | Filled => true
  | _ => false
  end.

Inductive EndFailure : Type :=
| RESIDUAL_POSITION
| ORDER_COUNT_MISMATCH (actual : nat).

(** [invested] is [self.Portfolio.Invested]; [orders] holds the status of
    every order of the run. *)
Definition OnEndOfAlgorithm (invested : bool) (orders : list OrderStatus)
    : result EndFailure unit :=
  check (negb invested) RESIDUAL_POSITION ;;
  let orders_count := length (filter is_Filled orders) in
  check (Nat.eqb orders_count 4) (ORDER_COUNT_MISMATCH orders_count).

(** Contracts by right, strike and expiry. *)
Definition call_at (k e : Z) : Contract := mkContract Call k e.
Definition put_at (k e : Z) : Contract := mkContract Put k e.

(** ** Vocabulary of the properties *)

(** What the two nested [sorted] calls produce: later expiries first, and
    among equal expiries the strike nearest to the underlying price
    first. *)
Definition expiry_then_distance (price : Z) (x y : Contract) : Prop :=
  Expiry y < Expiry x \/
  (Expiry x = Expiry y /\ distance price x <= distance price y).

(** The order with the two criteria exchanged. *)
Definition distance_then_expiry (price : Z) (x y : Contract) : Prop :=
  distance price x < distance price y \/
  (distance price x = distance price y /\ Expiry y <= Expiry x).

(** The order of the outer sort alone. *)
Definition later_expiry (x y : Contract) : Prop := Expiry y <= Expiry x.

(** No two different strikes of the chain are equally far from the
    underlying price. *)
Definition distinct_distances (price : Z) (chain : list Contract) : Prop :=
  forall x y, In x chain -> In y chain ->
    distance price x = distance price y -> Strike x = Strike y.

(** The same, as a test. *)
Definition distinct_distancesb (price : Z) (chain : list Contract) : bool :=
  forallb (fun x =>
    forallb (fun y =>
      implb (distance price x =? distance price y) (Strike x =? Strike y))
      chain) chain.

(** Lines 42-54 of the straddle file as a function of the groups. *)
Definition choose (groups : list (list Contract)) : option (Z * Z) :=
  match next (filter Straddle.has_both groups) [] with
  | [] => None
  | contract :: _ => Some (Strike contract, Expiry contract)
  end.

(** A group of the straddle selection: a key with a non-empty list of
    contracts of that strike and expiry. *)
Definition run_of_key (kg : (Z * Z) * list Contract) : Prop :=
  snd kg <> [] /\ Forall (fun x => strike_expiry x = fst kg) (snd kg).

(** The failures a run of a method makes known: none, or the one it
    raised. *)
Definition reported {E : Type} (r : result E unit) : list E :=
  match r with
  | Ok _ => []
  | Raise e => [e]
  end.

Definition count_right (side : OptionRight) (positions : list Position)
    : nat :=
  length (filter (has_right side) positions).

Section Runs.
Context {A K : Type} (K_eqb : K -> K -> bool) (key : A -> K).

Definition same_key (k : K) (y : A) : bool := K_eqb (key y) k.
Definition other_key (k : K) (y : A) : bool := negb (K_eqb (key y) k).

(** The run of elements with key [k] at the front of a list, and what
    follows it. *)
Fixpoint take_run (k : K) (l : list A) : list A :=
  match l with
  | [] => []
  | y :: l' => if same_key k y then y :: take_run k l' else []
  end.

Fixpoint drop_run (k : K) (l : list A) : list A :=
  match l with
  | [] => []
  | y :: l' => if same_key k y then drop_run k l' else l
  end.

Variable R : A -> A -> Prop.

(** Sorted for [R], with [R] separating the different keys of the list. *)
Definition tidy (s : list A) : Prop :=
  StronglySorted R s /\
  forall x y, In x s -> In y s -> R x y -> R y x -> key x = key y.

(** Groups with the same key that enumerate the same elements. *)
Definition same_group (a b : K * list A) : Prop :=
  fst a = fst b /\ Permutation (snd a) (snd b).
End Runs.

(** ** The whole of [OnData]

    The trading runtime is outside the two files.  [OnData] reads from it
    whether the portfolio is invested, the option chain of the slice (or
    [None]) and the position groups of the portfolio; what it asks of the
    runtime is recorded in order as a list of actions.  The option symbol,
    which [Initialize] fixes once, is left out of the strategies. *)

Inductive OptionStrategy : Type :=
| OptionStrategies_Straddle (strike expiry : Z)
| OptionStrategies_ShortStraddle (strike expiry : Z)
| OptionStrategies_Strangle (callStrike putStrike expiry : Z)
| OptionStrategies_ShortStrangle (callStrike putStrike expiry : Z).

Inductive Action : Type :=
| Buy (strategy : OptionStrategy) (quantity : Z)
| Quit.

Record OptionChain : Type := mkOptionChain {
  UnderlyingPrice : Z;
  ChainContracts : list Contract
}.

(** What ends [OnData] early: [list(...)[0]] on an empty list, the read of
    an attribute that was never assigned, or one of the [raise] of the
    verification. *)
Inductive Error : Type :=
| IndexError
| AttributeError
| VerificationError (f : Failure).

Definition lift_failure {A : Type} (r : result Failure A) : result Error A :=
  match r with
  | Ok a => Ok a
  | Raise f => Raise (VerificationError f)
  end.

(** [list(self.Portfolio.Positions.Groups)[0]] *)
Definition first_group (groups : list PositionGroup)
    : result Error PositionGroup :=
  match groups with
  | [] => Raise IndexError
  | positionGroup :: _ => Ok positionGroup
  end.

Module StraddleAlgorithm.

(** The two attributes the method assigns; [None] before the first
    assignment. *)
Record State : Type := mkState {
  _straddle : option OptionStrategy;
  _short_straddle : option OptionStrategy
}.

(** Lines 35-90 of the straddle file. *)
Definition OnData (self : State) (invested : bool)
    (chain : option OptionChain) (groups : list PositionGroup)
    : result Error (State * list Action) :=
  if negb invested then
    match chain with
    | Some chain =>
        match Straddle.select (UnderlyingPrice chain) (ChainContracts chain)
        with
        | None => Ok (self, [])
        | Some (strike, expiry) =>
            let straddle := OptionStrategies_Straddle strike expiry in
            let short_straddle :=
              OptionStrategies_ShortStraddle strike expiry in
            Ok (mkState (Some straddle) (Some short_straddle),
                [Buy straddle 2])
        end
    | None => Ok (self, [])
    end
  else
    positionGroup <- first_group groups ;;
    lift_failure (verify positionGroup) ;;
    short_straddle <- require (_short_straddle self) AttributeError ;;
    Ok (self, [Buy short_straddle 2; Quit]).

End StraddleAlgorithm.

Module StrangleAlgorithm.

Record State : Type := mkState {
  _strangle : option OptionStrategy;
  _short_strangle : option OptionStrategy
}.

(** Lines 35-95 of the strangle file. *)
Definition OnData (self : State) (invested : bool)
    (chain : option OptionChain) (groups : list PositionGroup)
    : result Error (State * list Action) :=
  if negb invested then
    match chain with
    | Some chain =>
        match Strangle.select (UnderlyingPrice chain) (ChainContracts chain)
        with
        | None => Ok (self, [])
        | Some (callContract, putContract) =>
            let strangle :=
              OptionStrategies_Strangle (Strike callContract)
                (Strike putContract) (Expiry callContract) in
            let short_strangle :=
              OptionStrategies_ShortStrangle (Strike callContract)
                (Strike putContract) (Expiry callContract) in
            Ok (mkState (Some strangle) (Some short_strangle),
                [Buy strangle 2])
        end
    | None => Ok (self, [])
    end
  else
    positionGroup <- first_group groups ;;
    lift_failure (verify positionGroup) ;;
    short_strangle <- require (_short_strangle self) AttributeError ;;
    Ok (self, [Buy short_strangle 2; Quit]).

End StrangleAlgorithm.

(** ** Vocabulary of the further properties *)

(** The pair the strangle selection is after: a call and a put of the
    chain with one expiry, the call struck above the put, the call the
    highest struck call and the put the lowest struck put of that expiry,
    and no later expiry of the chain with a call struck above a put. *)
Definition strangle_best (chain : list Contract) (c q : Contract) : Prop :=
  In c chain /\ In q chain /\ Right c = Call /\ Right q = Put /\
  Expiry c = Expiry q /\ Strike c > Strike q /\
  (forall c', In c' chain -> Right c' = Call -> Expiry c' = Expiry c ->
     Strike c' <= Strike c) /\
  (forall q', In q' chain -> Right q' = Put -> Expiry q' = Expiry c ->
     Strike q <= Strike q') /\
  (forall c' q', In c' chain -> In q' chain ->
     Right c' = Call -> Right q' = Put -> Expiry c' = Expiry q' ->
     Strike c' > Strike q' -> Expiry c' <= Expiry c).

(** A strike and expiry of the chain with a call and a put. *)
Definition has_straddle (chain : list Contract) (k e : Z) : Prop :=
  In (call_at k e) chain /\ In (put_at k e) chain.

(** The strike and expiry the straddle selection is after: the latest
    expiry with a call and a put at one strike, and at that expiry the
    strike nearest to the underlying price. *)
Definition straddle_best (price : Z) (chain : list Contract) (k e : Z)
    : Prop :=
  has_straddle chain k e /\
  forall k' e', has_straddle chain k' e' ->
    e' < e \/ (e' = e /\ Z.abs (price - k) <= Z.abs (price - k')).

(** A group the strangle loop passes over has no call struck above a
    put. *)
Definition no_strangle (g : list Contract) : Prop :=
  forall c q, In c g -> In q g -> Right c = Call -> Right q = Put ->
    Strike c <= Strike q.

(** The pair the strangle loop takes from a group: the highest struck call
    and the lowest struck put, the call above the put. *)
Definition picked (g : list Contract) (c q : Contract) : Prop :=
  In c g /\ In q g /\ Right c = Call /\ Right q = Put /\
  Strike c > Strike q /\
  (forall c', In c' g -> Right c' = Call -> Strike c' <= Strike c) /\
  (forall q', In q' g -> Right q' = Put -> Strike q <= Strike q').

(** What the verification reads of a position. *)
Definition right_and_quantity (p : Position) : OptionRight * Z :=
  (Right (Symbol p), Quantity p).

(** * Properties *)

Lemma OptionRight_eqb_eq (a b : OptionRight) :
  OptionRight_eqb a b = true <-> a = b.
Proof. destruct a, b; simpl; split; congruence. Qed.

Lemma Contract_ext (x y : Contract) :
  Right x = Right y -> Strike x = Strike y -> Expiry x = Expiry y -> x = y.
Proof. destruct x, y; simpl; congruence. Qed.

(** ** The stable sort *)

Section StableSort.
Context {A : Type} (le : A -> A -> bool).

Lemma insert_by_perm (x : A) (l : list A) :
  Permutation (insert_by le x l) (x :: l).
Proof.
  induction l as [|y l IH]; simpl; [reflexivity|].
  destruct (le x y); [reflexivity|].
  rewrite IH. apply perm_swap.
Qed.

Lemma stable_sort_perm (l : list A) : Permutation (stable_sort le l) l.
Proof.
  induction l as [|x l IH]; simpl; [constructor|].
  rewrite insert_by_perm. now constructor.
Qed.

Lemma stable_sort_In (l : list A) (x : A) :
  In x (stable_sort le l) <-> In x l.
Proof.
  split; apply Permutation_in;
    [apply stable_sort_perm | symmetry; apply stable_sort_perm].
Qed.

Hypothesis le_total : forall x y, le x y = true \/ le y x = true.
Hypothesis le_trans :
  forall x y z, le x y = true -> le y z = true -> le x z = true.

Lemma insert_by_sorted (x : A) (l : list A) :
  StronglySorted (fun x y => le x y = true) l ->
  StronglySorted (fun x y => le x y = true) (insert_by le x l).
Proof.
  induction 1 as [|y l Hl IH Hy]; simpl.
  - repeat constructor.
  - destruct (le x y) eqn:Hxy.
    + constructor; [now constructor|].
      constructor; [exact Hxy|].
      rewrite Forall_forall in *. intros z Hz.
      apply (le_trans x y z); [exact Hxy | now apply Hy].
    + constructor; [exact IH|].
      rewrite Forall_forall in *. intros z Hz.
      apply (Permutation_in _ (insert_by_perm x l)) in Hz.
      destruct Hz as [<-|Hz]; [|now apply Hy].
      destruct (le_total x y) as [H|H]; [congruence | exact H].
Qed.

Lemma stable_sort_sorted (l : list A) :
  StronglySorted (fun x y => le x y = true) (stable_sort le l).
Proof.
  induction l as [|x l IH]; simpl; [constructor|].
  now apply insert_by_sorted.
Qed.

(** The first element of the sorted list is below every element. *)
Lemma stable_sort_head (l : list A) (x : A) (t : list A) :
  stable_sort le l = x :: t -> In x l /\ forall y, In y l -> le x y = true.
Proof.
  intros E. split.
  - apply stable_sort_In. rewrite E. now left.
  - intros y Hy. apply stable_sort_In in Hy.
    pose proof (stable_sort_sorted l) as S. rewrite E in *.
    inversion S as [|? ? _ Hall]; subst.
    destruct Hy as [<-|Hy].
    + now destruct (le_total x x).
    + rewrite Forall_forall in Hall. now apply Hall.
Qed.

(** When the comparison is antisymmetric on the list, the first element
    is the same for every enumeration of the list. *)
Lemma stable_sort_head_perm (l1 l2 : list A) :
  (forall x y, In x l1 -> In y l1 ->
     le x y = true -> le y x = true -> x = y) ->
  Permutation l1 l2 ->
  hd_error (stable_sort le l1) = hd_error (stable_sort le l2).
Proof.
  intros Hanti HP.
  destruct (stable_sort le l1) as [|x1 t1] eqn:E1;
    destruct (stable_sort le l2) as [|x2 t2] eqn:E2; simpl.
  - reflexivity.
  - exfalso. pose proof (stable_sort_perm l1) as Q. rewrite E1 in Q.
    apply Permutation_nil in Q. subst l1.
    apply Permutation_nil in HP. subst l2. discriminate.
  - exfalso. pose proof (stable_sort_perm l2) as Q. rewrite E2 in Q.
    apply Permutation_nil in Q. subst l2.
    symmetry in HP. apply Permutation_nil in HP. subst l1. discriminate.
  - apply stable_sort_head in E1, E2.
    destruct E1 as [I1 M1], E2 as [I2 M2].
    f_equal. apply Hanti; trivial.
    + eapply Permutation_in; [symmetry; exact HP | exact I2].
    + apply M1. eapply Permutation_in; [symmetry; exact HP | exact I2].
    + apply M2. eapply Permutation_in; [exact HP | exact I1].
Qed.
End StableSort.

(** Stability: contracts with the same key keep the order they had, which
    is what makes the insertion sort the list Python's [sorted] returns. *)
Lemma sorted_stable {A : Type} (key : A -> Z) (l : list A) (k : Z) :
  filter (fun y => key y =? k) (sorted key l) =
  filter (fun y => key y =? k) l.
Proof.
  unfold sorted. induction l as [|x l IH]; [reflexivity|].
  cbn [stable_sort fold_right].
  fold (stable_sort (fun x y => key x <=? key y) l).
  transitivity (filter (fun y => key y =? k)
                  (x :: stable_sort (fun x y => key x <=? key y) l)).
  - clear IH. induction (stable_sort (fun x y => key x <=? key y) l)
      as [|y t IHt]; [reflexivity|].
    cbn [insert_by]. destruct (key x <=? key y) eqn:E; [reflexivity|].
    apply Z.leb_gt in E. cbn [filter] in *. rewrite IHt.
    destruct (Z.eqb_spec (key x) k), (Z.eqb_spec (key y) k);
      try reflexivity; lia.
  - cbn [filter]. now rewrite IH.
Qed.

Lemma sorted_reverse_stable {A : Type} (key : A -> Z) (l : list A) (k : Z) :
  filter (fun y => key y =? k) (sorted_reverse key l) =
  filter (fun y => key y =? k) l.
Proof.
  unfold sorted_reverse. induction l as [|x l IH]; [reflexivity|].
  cbn [stable_sort fold_right].
  fold (stable_sort (fun x y => key y <=? key x) l).
  transitivity (filter (fun y => key y =? k)
                  (x :: stable_sort (fun x y => key y <=? key x) l)).
  - clear IH. induction (stable_sort (fun x y => key y <=? key x) l)
      as [|y t IHt]; [reflexivity|].
    cbn [insert_by]. destruct (key y <=? key x) eqn:E; [reflexivity|].
    apply Z.leb_gt in E. cbn [filter] in *. rewrite IHt.
    destruct (Z.eqb_spec (key x) k), (Z.eqb_spec (key y) k);
      try reflexivity; lia.
  - cbn [filter]. now rewrite IH.
Qed.

(** ** The order of the candidate sequence *)

Lemma insert_by_expiry_sorted (price : Z) (x : Contract) (l : list Contract) :
  StronglySorted (expiry_then_distance price) l ->
  Forall (fun w => distance price x <= distance price w) l ->
  StronglySorted (expiry_then_distance price)
    (insert_by (fun a b => Expiry b <=? Expiry a) x l).
Proof.
  induction 1 as [|y l Hl IH Hy]; intros Hx; simpl.
  - repeat constructor.
  - inversion Hx as [|? ? Hxy Hxl]; subst.
    destruct (Expiry y <=? Expiry x) eqn:E.
    + apply Z.leb_le in E.
      constructor; [now constructor|].
      constructor; [unfold expiry_then_distance; lia|].
      rewrite Forall_forall in *. intros w Hw.
      specialize (Hy w Hw). specialize (Hxl w Hw).
      unfold expiry_then_distance in *. lia.
    + apply Z.leb_gt in E.
      constructor; [now apply IH|].
      rewrite Forall_forall in *. intros w Hw.
      apply (Permutation_in _ (insert_by_perm _ x l)) in Hw.
      destruct Hw as [<-|Hw]; [|now apply Hy].
      unfold expiry_then_distance. lia.
Qed.

Lemma contracts_perm (price : Z) (chain : list Contract) :
  Permutation (contracts price chain) chain.
Proof.
  unfold contracts, sorted_reverse, sorted.
  now rewrite !stable_sort_perm.
Qed.

Lemma contracts_In (price : Z) (chain : list Contract) (x : Contract) :
  In x (contracts price chain) <-> In x chain.
Proof.
  split; apply Permutation_in;
    [apply contracts_perm | symmetry; apply contracts_perm].
Qed.

Lemma contracts_sorted (price : Z) (chain : list Contract) :
  StronglySorted (expiry_then_distance price) (contracts price chain).
Proof.
  unfold contracts, sorted_reverse.
  assert (S : StronglySorted
                (fun x y => (distance price x <=? distance price y) = true)
                (sorted (distance price) chain)).
  { apply stable_sort_sorted.
    - intros x y.
      destruct (Z.le_ge_cases (distance price x) (distance price y));
        [left | right]; now apply Z.leb_le.
    - intros x y z H1 H2. apply Z.leb_le in H1, H2. apply Z.leb_le. lia. }
  induction S as [|x t St IH Hx]; simpl; [constructor|].
  apply insert_by_expiry_sorted; [exact IH|].
  rewrite Forall_forall in *. intros w Hw.
  apply stable_sort_In in Hw. apply Z.leb_le. now apply Hx.
Qed.

(** ** Grouping into runs *)

Lemma filter_none {A : Type} (f : A -> bool) (l : list A) :
  (forall z, In z l -> f z = false) -> filter f l = [].
Proof.
  induction l as [|y l IH]; simpl; intros H; [reflexivity|].
  rewrite (H y (or_introl eq_refl)). apply IH. intros z Hz. apply H. now right.
Qed.

Lemma filter_all {A : Type} (f : A -> bool) (l : list A) :
  (forall z, In z l -> f z = true) -> filter f l = l.
Proof.
  induction l as [|y l IH]; simpl; intros H; [reflexivity|].
  rewrite (H y (or_introl eq_refl)). f_equal. apply IH.
  intros z Hz. apply H. now right.
Qed.

Lemma filter_perm {A : Type} (f : A -> bool) (l1 l2 : list A) :
  Permutation l1 l2 -> Permutation (filter f l1) (filter f l2).
Proof.
  induction 1 as [|x l1 l2 _ IH|x y l|l1 l2 l3 _ IH1 _ IH2]; simpl.
  - constructor.
  - destruct (f x); [now constructor | exact IH].
  - destruct (f x), (f y); try reflexivity. apply perm_swap.
  - now transitivity (filter f l2).
Qed.

Lemma StronglySorted_filter {A : Type} (R : A -> A -> Prop) (f : A -> bool)
    (l : list A) :
  StronglySorted R l -> StronglySorted R (filter f l).
Proof.
  induction 1 as [|x l Hl IH Hx]; simpl; [constructor|].
  destruct (f x); [|exact IH].
  constructor; [exact IH|].
  rewrite Forall_forall in *. intros z Hz. apply filter_In in Hz.
  now apply Hx.
Qed.

Lemma StronglySorted_weaken {A : Type} (R S : A -> A -> Prop) (l : list A) :
  (forall x y, R x y -> S x y) -> StronglySorted R l -> StronglySorted S l.
Proof.
  intros HRS. induction 1 as [|x l Hl IH Hx]; constructor; [exact IH|].
  rewrite Forall_forall in *. intros z Hz. apply HRS. now apply Hx.
Qed.

Section GroupBy.
Context {A K : Type} (K_eqb : K -> K -> bool) (key : A -> K).
Hypothesis K_eqb_eq : forall a b, K_eqb a b = true <-> a = b.

Lemma K_eqb_refl (a : K) : K_eqb a a = true.
Proof. now apply K_eqb_eq. Qed.

Lemma groupby_unfold (x : A) (l : list A) :
  groupby K_eqb key (x :: l) =
  match groupby K_eqb key l with
  | (k, g) :: gs =>
      if K_eqb (key x) k then (k, x :: g) :: gs
      else (key x, [x]) :: (k, g) :: gs
  | [] => [(key x, [x])]
  end.
Proof. reflexivity. Qed.

Lemma groupby_cons (x : A) (t : list A) :
  groupby K_eqb key (x :: t) =
  (key x, x :: take_run K_eqb key (key x) t)
    :: groupby K_eqb key (drop_run K_eqb key (key x) t).
Proof.
  revert x. induction t as [|y t IH]; intros x; [reflexivity|].
  rewrite groupby_unfold, (IH y). cbn [take_run drop_run]. unfold same_key.
  destruct (K_eqb (key x) (key y)) eqn:E.
  - apply K_eqb_eq in E. rewrite E, K_eqb_refl. reflexivity.
  - destruct (K_eqb (key y) (key x)) eqn:E'.
    + apply K_eqb_eq in E'. rewrite E', K_eqb_refl in E. discriminate.
    + now rewrite (IH y).
Qed.

Lemma drop_run_length (k : K) (l : list A) :
  (length (drop_run K_eqb key k l) <= length l)%nat.
Proof.
  induction l as [|y l IH]; simpl; [lia|].
  destruct (same_key K_eqb key k y); simpl; lia.
Qed.

Lemma take_drop_run (k : K) (l : list A) :
  take_run K_eqb key k l ++ drop_run K_eqb key k l = l.
Proof.
  induction l as [|y l IH]; simpl; [reflexivity|].
  destruct (same_key K_eqb key k y); simpl; [now rewrite IH | reflexivity].
Qed.

Lemma take_run_key (k : K) (l : list A) :
  Forall (fun x => key x = k) (take_run K_eqb key k l).
Proof.
  induction l as [|y l IH]; simpl; [constructor|].
  destruct (same_key K_eqb key k y) eqn:E; constructor; [|exact IH].
  now apply K_eqb_eq.
Qed.

(** Facts that hold for every list: each group is a non-empty run of one
    key, and the groups in sequence are the list. *)
Lemma groupby_groups (l : list A) :
  Forall (fun kg => snd kg <> [] /\ Forall (fun x => key x = fst kg) (snd kg))
         (groupby K_eqb key l).
Proof.
  remember (length l) as n eqn:Hn.
  assert (Hle : (length l <= n)%nat) by lia. clear Hn.
  revert l Hle. induction n as [|n IH]; intros [|x t] Hle; simpl in Hle;
    try (constructor; fail); try lia.
  rewrite groupby_cons. constructor.
  - simpl. split; [discriminate|].
    constructor; [reflexivity | apply take_run_key].
  - apply IH. pose proof (drop_run_length (key x) t). lia.
Qed.

Lemma groupby_concat (l : list A) :
  concat (map snd (groupby K_eqb key l)) = l.
Proof.
  remember (length l) as n eqn:Hn.
  assert (Hle : (length l <= n)%nat) by lia. clear Hn.
  revert l Hle. induction n as [|n IH]; intros [|x t] Hle; simpl in Hle;
    try reflexivity; try lia.
  rewrite groupby_cons. cbn [map concat snd].
  rewrite IH by (pose proof (drop_run_length (key x) t); lia).
  simpl. now rewrite take_drop_run.
Qed.

(** *** Lists in which equal keys are adjacent *)

Variable R : A -> A -> Prop.
Hypothesis R_trans : forall x y z, R x y -> R y z -> R x z.
Hypothesis key_R : forall x y, key x = key y -> R x y.

Lemma tidy_filter (f : A -> bool) (s : list A) :
  tidy key R s -> tidy key R (filter f s).
Proof.
  intros [S H]. split; [now apply StronglySorted_filter|].
  intros x y Hx Hy. apply filter_In in Hx, Hy. apply H; tauto.
Qed.

Lemma tidy_skip (x y : A) (t : list A) :
  tidy key R (x :: y :: t) -> tidy key R (x :: t).
Proof.
  intros [S H]. split.
  - inversion S as [|? ? S' Hx]; subst. inversion S' as [|? ? S'' Hy]; subst.
    inversion Hx; subst. now constructor.
  - intros a b Ha Hb. apply H; simpl in *; tauto.
Qed.

Lemma tidy_head (x : A) (t : list A) (y : A) :
  tidy key R (x :: t) -> In y (x :: t) -> R x y.
Proof.
  intros [S _] [<-|Hy]; [now apply key_R|].
  inversion S as [|? ? _ Hx]; subst. rewrite Forall_forall in Hx.
  now apply Hx.
Qed.

Lemma run_filter (x : A) (t : list A) :
  tidy key R (x :: t) ->
  take_run K_eqb key (key x) t = filter (same_key K_eqb key (key x)) t /\
  drop_run K_eqb key (key x) t = filter (other_key K_eqb key (key x)) t.
Proof.
  induction t as [|y t IH]; intros T; [now split|].
  destruct (IH (tidy_skip _ _ _ T)) as [IH1 IH2].
  cbn [take_run drop_run filter]. unfold other_key at 1.
  fold (same_key K_eqb key (key x) y).
  destruct (same_key K_eqb key (key x) y) eqn:E; cbn [negb].
  - now rewrite IH1, IH2.
  - assert (N : forall z, In z t -> same_key K_eqb key (key x) z = false).
    { intros z Hz.
      destruct (same_key K_eqb key (key x) z) eqn:Ez; [|reflexivity].
      exfalso. apply K_eqb_eq in Ez.
      assert (Hyz : R y z).
      { destruct T as [S _]. inversion S as [|? ? S' _]; subst.
        inversion S' as [|? ? _ Hy]; subst.
        rewrite Forall_forall in Hy. now apply Hy. }
      assert (Hxy : R x y) by (apply (tidy_head x (y :: t)); simpl; auto).
      assert (Hyx : R y x) by (apply (R_trans y z x); auto).
      destruct T as [_ H].
      assert (Ek : key x = key y) by (apply H; simpl; auto).
      unfold same_key in E. rewrite Ek, K_eqb_refl in E. discriminate. }
    split; [symmetry; now apply filter_none|].
    f_equal. symmetry. apply filter_all. intros z Hz.
    unfold other_key. fold (same_key K_eqb key (key x) z). now rewrite (N z Hz).
Qed.

Lemma groupby_tidy (x : A) (t : list A) :
  tidy key R (x :: t) ->
  groupby K_eqb key (x :: t) =
  (key x, x :: filter (same_key K_eqb key (key x)) t)
    :: groupby K_eqb key (filter (other_key K_eqb key (key x)) t).
Proof.
  intros T. rewrite groupby_cons.
  destruct (run_filter x t T) as [-> ->]. reflexivity.
Qed.

Lemma tidy_rest (x : A) (t : list A) (f : A -> bool) :
  tidy key R (x :: t) -> tidy key R (filter f t).
Proof.
  intros [S H]. apply tidy_filter. split.
  - now inversion S.
  - intros a b Ha Hb. apply H; simpl; auto.
Qed.

Lemma groupby_tidy_perm (s1 s2 : list A) :
  tidy key R s1 -> tidy key R s2 -> Permutation s1 s2 ->
  Forall2 same_group (groupby K_eqb key s1) (groupby K_eqb key s2).
Proof.
  remember (length s1) as n eqn:Hn.
  assert (Hle : (length s1 <= n)%nat) by lia. clear Hn.
  revert s1 s2 Hle. induction n as [|n IH]; intros s1 s2 Hle T1 T2 HP.
  - destruct s1; [|simpl in Hle; lia].
    apply Permutation_nil in HP. subst. constructor.
  - destruct s1 as [|x1 t1].
    { apply Permutation_nil in HP. subst. constructor. }
    destruct s2 as [|x2 t2].
    { symmetry in HP. apply Permutation_nil in HP. discriminate. }
    assert (Ek : key x1 = key x2).
    { destruct T1 as [S1 H1]. apply H1.
      - now left.
      - eapply Permutation_in; [symmetry; exact HP | now left].
      - apply (tidy_head x1 t1); [now split|].
        eapply Permutation_in; [symmetry; exact HP | now left].
      - apply (tidy_head x2 t2); [exact T2|].
        eapply Permutation_in; [exact HP | now left]. }
    rewrite (groupby_tidy x1 t1 T1), (groupby_tidy x2 t2 T2).
    assert (B1 : same_key K_eqb key (key x1) x1 = true) by apply K_eqb_refl.
    assert (B2 : same_key K_eqb key (key x1) x2 = true).
    { unfold same_key. rewrite Ek. apply K_eqb_refl. }
    assert (Hs : Permutation (x1 :: filter (same_key K_eqb key (key x1)) t1)
                             (x2 :: filter (same_key K_eqb key (key x2)) t2)).
    { pose proof (filter_perm (same_key K_eqb key (key x1)) _ _ HP) as Q.
      cbn [filter] in Q. rewrite B1, B2 in Q. now rewrite <- Ek. }
    assert (Ho : Permutation (filter (other_key K_eqb key (key x1)) t1)
                             (filter (other_key K_eqb key (key x2)) t2)).
    { pose proof (filter_perm (other_key K_eqb key (key x1)) _ _ HP) as Q.
      assert (O1 : other_key K_eqb key (key x1) x1 = false).
      { unfold other_key. fold (same_key K_eqb key (key x1) x1).
        now rewrite B1. }
      assert (O2 : other_key K_eqb key (key x1) x2 = false).
      { unfold other_key. fold (same_key K_eqb key (key x1) x2).
        now rewrite B2. }
      cbn [filter] in Q. rewrite O1, O2 in Q. now rewrite <- Ek. }
    constructor.
    + split; [exact Ek | exact Hs].
    + apply IH.
      * pose proof (filter_length_le (other_key K_eqb key (key x1)) t1).
        simpl in Hle. lia.
      * now apply (tidy_rest x1).
      * now apply (tidy_rest x2).
      * exact Ho.
Qed.

Lemma filter_same_other (k k' : K) (t : list A) :
  k <> k' ->
  filter (same_key K_eqb key k) (filter (other_key K_eqb key k') t) =
  filter (same_key K_eqb key k) t.
Proof.
  intros Hk. induction t as [|y t IH]; [reflexivity|]. cbn [filter].
  destruct (other_key K_eqb key k' y) eqn:Eo; cbn [filter];
    destruct (same_key K_eqb key k y) eqn:Es; try (now rewrite IH).
  exfalso. unfold other_key in Eo. unfold same_key in Es.
  apply K_eqb_eq in Es.
  destruct (K_eqb (key y) k') eqn:E'; [|discriminate].
  apply K_eqb_eq in E'. congruence.
Qed.

(** In a tidy list no key is split across runs: the keys of the groups
    are pairwise different and a group holds every element of its key. *)
Lemma groupby_tidy_complete (s : list A) :
  tidy key R s ->
  NoDup (map fst (groupby K_eqb key s)) /\
  forall k g, In (k, g) (groupby K_eqb key s) ->
    g = filter (same_key K_eqb key k) s.
Proof.
  remember (length s) as n eqn:Hn.
  assert (Hle : (length s <= n)%nat) by lia. clear Hn.
  revert s Hle. induction n as [|n IH]; intros [|x t] Hle T; simpl in Hle;
    try lia; try (split; [constructor | intros ? ? []]).
  rewrite (groupby_tidy x t T).
  set (rest := filter (other_key K_eqb key (key x)) t).
  assert (Hrest : (length rest <= n)%nat).
  { pose proof (filter_length_le (other_key K_eqb key (key x)) t).
    unfold rest. lia. }
  destruct (IH rest Hrest (tidy_rest x t _ T)) as [ND HG].
  assert (Hother : forall k g,
            In (k, g) (groupby K_eqb key rest) -> k <> key x).
  { intros k g Hin ->.
    pose proof (groupby_groups rest) as GG. rewrite Forall_forall in GG.
    destruct (GG _ Hin) as [Hne _]. apply Hne. cbn [snd].
    rewrite (HG _ _ Hin). apply filter_none. intros z Hz.
    apply filter_In in Hz. destruct Hz as [_ Hz].
    unfold other_key in Hz. unfold same_key.
    now destruct (K_eqb (key z) (key x)). }
  split.
  - cbn [map fst]. constructor; [|exact ND].
    intros Hin. apply in_map_iff in Hin.
    destruct Hin as [[k g] [Ek Hin]]. cbn [fst] in Ek. subst k.
    now apply (Hother _ _ Hin).
  - intros k g [E|Hin].
    + inversion E; subst. cbn [filter]. unfold same_key at 2.
      now rewrite K_eqb_refl.
    + pose proof (Hother _ _ Hin) as Hk.
      cbn [filter]. destruct (same_key K_eqb key k x) eqn:Ex.
      * exfalso. apply Hk. symmetry. now apply K_eqb_eq.
      * rewrite (HG _ _ Hin). now apply filter_same_other.
Qed.
End GroupBy.

(** ** The candidate sequence is tidy for both grouping keys *)

Lemma pair_eqb_eq (a b : Z * Z) : pair_eqb a b = true <-> a = b.
Proof.
  destruct a as [a1 a2], b as [b1 b2]. unfold pair_eqb. simpl.
  rewrite andb_true_iff, !Z.eqb_eq. split; [intros []; congruence|].
  intros E. inversion E. auto.
Qed.

Lemma expiry_then_distance_trans (price : Z) (x y z : Contract) :
  expiry_then_distance price x y -> expiry_then_distance price y z ->
  expiry_then_distance price x z.
Proof. unfold expiry_then_distance. lia. Qed.

Lemma contracts_tidy_expiry (price : Z) (chain : list Contract) :
  tidy Expiry later_expiry (contracts price chain).
Proof.
  split.
  - apply (StronglySorted_weaken (expiry_then_distance price));
      [|apply contracts_sorted].
    unfold expiry_then_distance, later_expiry. lia.
  - unfold later_expiry. lia.
Qed.

Lemma contracts_tidy_strike_expiry (price : Z) (chain : list Contract) :
  distinct_distances price chain ->
  tidy strike_expiry (expiry_then_distance price) (contracts price chain).
Proof.
  intros D. split; [apply contracts_sorted|].
  intros x y Hx Hy Hxy Hyx. apply contracts_In in Hx, Hy.
  unfold expiry_then_distance in *. unfold strike_expiry.
  f_equal; [apply D; trivial|]; lia.
Qed.

Lemma strike_expiry_related (price : Z) (x y : Contract) :
  strike_expiry x = strike_expiry y -> expiry_then_distance price x y.
Proof.
  unfold strike_expiry, expiry_then_distance, distance.
  intros E. inversion E as [[E1 E2]]. rewrite E1, E2. lia.
Qed.

(** ** The strangle loop *)

Lemma existsb_perm {A : Type} (f : A -> bool) (l1 l2 : list A) :
  Permutation l1 l2 -> existsb f l1 = existsb f l2.
Proof.
  intros HP. apply eq_true_iff_eq. rewrite !existsb_exists.
  split; intros [x [Hx Hf]]; exists x; split; trivial.
  - now apply (Permutation_in _ HP).
  - now apply (Permutation_in _ (Permutation_sym HP)).
Qed.

Lemma scan_cons (group : list Contract) (rest : list (list Contract)) :
  Strangle.scan (group :: rest) =
  match hd_error (Strangle.callContracts group),
        hd_error (Strangle.putContracts group) with
  | Some c, Some p =>
      if Strike c >? Strike p then Some (c, p) else Strangle.scan rest
  | _, _ => Strangle.scan rest
  end.
Proof.
  simpl. destruct (Strangle.callContracts group);
    destruct (Strangle.putContracts group); reflexivity.
Qed.

Lemma callContracts_hd_perm (g1 g2 : list Contract) (e : Z) :
  Forall (fun x => Expiry x = e) g1 -> Permutation g1 g2 ->
  hd_error (Strangle.callContracts g1) = hd_error (Strangle.callContracts g2).
Proof.
  intros He HP. unfold Strangle.callContracts, sorted_reverse.
  apply stable_sort_head_perm.
  - intros x y. destruct (Z.le_ge_cases (Strike x) (Strike y));
      [right | left]; now apply Z.leb_le.
  - intros x y z H1 H2. apply Z.leb_le in H1, H2. apply Z.leb_le. lia.
  - rewrite Forall_forall in He.
    intros x y Hx Hy H1 H2. apply filter_In in Hx, Hy.
    destruct Hx as [Hx Rx], Hy as [Hy Ry].
    apply OptionRight_eqb_eq in Rx, Ry. apply Z.leb_le in H1, H2.
    apply Contract_ext; [congruence | lia |].
    now rewrite (He x Hx), (He y Hy).
  - now apply filter_perm.
Qed.

Lemma putContracts_hd_perm (g1 g2 : list Contract) (e : Z) :
  Forall (fun x => Expiry x = e) g1 -> Permutation g1 g2 ->
  hd_error (Strangle.putContracts g1) = hd_error (Strangle.putContracts g2).
Proof.
  intros He HP. unfold Strangle.putContracts, sorted.
  apply stable_sort_head_perm.
  - intros x y. destruct (Z.le_ge_cases (Strike x) (Strike y));
      [left | right]; now apply Z.leb_le.
  - intros x y z H1 H2. apply Z.leb_le in H1, H2. apply Z.leb_le. lia.
  - rewrite Forall_forall in He.
    intros x y Hx Hy H1 H2. apply filter_In in Hx, Hy.
    destruct Hx as [Hx Rx], Hy as [Hy Ry].
    apply OptionRight_eqb_eq in Rx, Ry. apply Z.leb_le in H1, H2.
    apply Contract_ext; [congruence | lia |].
    now rewrite (He x Hx), (He y Hy).
  - now apply filter_perm.
Qed.

Lemma scan_same_groups (gs1 gs2 : list (Z * list Contract)) :
  Forall2 same_group gs1 gs2 ->
  Forall (fun kg => snd kg <> [] /\
                    Forall (fun x => Expiry x = fst kg) (snd kg)) gs1 ->
  Strangle.scan (map snd gs1) = Strangle.scan (map snd gs2).
Proof.
  induction 1 as [|[k1 g1] [k2 g2] gs1 gs2 [Hk HP] _ IH]; intros HF;
    [reflexivity|].
  inversion HF as [|? ? [_ He] HF']; subst. cbn [fst snd] in *.
  cbn [map snd]. rewrite !scan_cons.
  rewrite (callContracts_hd_perm g1 g2 k1 He HP).
  rewrite (putContracts_hd_perm g1 g2 k1 He HP).
  now rewrite (IH HF').
Qed.

(** The strangle selection is the same for every enumeration of the
    chain. *)
Lemma strangle_select_perm (price : Z) (l1 l2 : list Contract) :
  Permutation l1 l2 -> Strangle.select price l1 = Strangle.select price l2.
Proof.
  intros HP. unfold Strangle.select, Strangle.groupedContracts.
  apply scan_same_groups.
  - apply (groupby_tidy_perm Z.eqb Expiry Z.eqb_eq later_expiry).
    + unfold later_expiry. lia.
    + unfold later_expiry. lia.
    + apply contracts_tidy_expiry.
    + apply contracts_tidy_expiry.
    + now rewrite !contracts_perm.
  - apply groupby_groups. exact Z.eqb_eq.
Qed.

Lemma scan_sound (groups : list (list Contract)) (c p : Contract) :
  Strangle.scan groups = Some (c, p) ->
  exists group, In group groups /\ In c group /\ In p group /\
    Right c = Call /\ Right p = Put /\ Strike c > Strike p.
Proof.
  induction groups as [|g rest IH]; [discriminate|].
  intros H.
  assert (Hrest : Strangle.scan rest = Some (c, p) ->
          exists group, In group (g :: rest) /\ In c group /\ In p group /\
            Right c = Call /\ Right p = Put /\ Strike c > Strike p).
  { intros Hr. destruct (IH Hr) as [g' [Hg' Hrest]]. exists g'.
    split; [now right | exact Hrest]. }
  simpl in H.
  destruct (Strangle.callContracts g) as [|c' cs] eqn:Ec; [now apply Hrest|].
  destruct (Strangle.putContracts g) as [|p' ps] eqn:Ep; [now apply Hrest|].
  destruct (Strike c' >? Strike p') eqn:Es; [|now apply Hrest].
  inversion H; subst c' p'. exists g.
  assert (Hc : In c (filter is_call g)).
  { apply (stable_sort_In (fun x y => Strike y <=? Strike x)).
    unfold Strangle.callContracts, sorted_reverse in Ec. rewrite Ec. now left. }
  assert (Hp : In p (filter is_put g)).
  { apply (stable_sort_In (fun x y => Strike x <=? Strike y)).
    unfold Strangle.putContracts, sorted in Ep. rewrite Ep. now left. }
  apply filter_In in Hc, Hp. destruct Hc as [Hc Rc], Hp as [Hp Rp].
  apply OptionRight_eqb_eq in Rc, Rp. apply Z.gtb_lt in Es.
  repeat split; trivial; try now left. lia.
Qed.

(** ** The straddle choice *)

Lemma distinct_distancesb_spec (price : Z) (chain : list Contract) :
  distinct_distancesb price chain = true -> distinct_distances price chain.
Proof.
  unfold distinct_distancesb. rewrite forallb_forall.
  intros H x y Hx Hy E. specialize (H x Hx). rewrite forallb_forall in H.
  specialize (H y Hy). apply Z.eqb_eq in E. rewrite E in H. simpl in H.
  now apply Z.eqb_eq.
Qed.

Lemma distinct_distances_perm (price : Z) (l1 l2 : list Contract) :
  Permutation l1 l2 -> distinct_distances price l1 ->
  distinct_distances price l2.
Proof.
  intros HP D x y Hx Hy. apply D;
    now apply (Permutation_in _ (Permutation_sym HP)).
Qed.

Lemma select_choose (price : Z) (chain : list Contract) :
  Straddle.select price chain = choose (Straddle.groupedContracts price chain).
Proof. reflexivity. Qed.

Lemma has_both_perm (g1 g2 : list Contract) :
  Permutation g1 g2 -> Straddle.has_both g1 = Straddle.has_both g2.
Proof.
  intros HP. unfold Straddle.has_both.
  now rewrite (existsb_perm is_call _ _ HP), (existsb_perm is_put _ _ HP).
Qed.

Lemma choose_cons (k : Z * Z) (g : list Contract)
    (gs : list ((Z * Z) * list Contract)) :
  run_of_key (k, g) ->
  choose (map snd ((k, g) :: gs)) =
  if Straddle.has_both g then Some k else choose (map snd gs).
Proof.
  intros [Hne Hk]. unfold choose. cbn [map snd filter].
  destruct (Straddle.has_both g); [|reflexivity].
  cbn [next]. cbn [snd fst] in *. destruct g as [|c g]; [congruence|].
  inversion Hk; subst. reflexivity.
Qed.

Lemma choose_same_groups (gs1 gs2 : list ((Z * Z) * list Contract)) :
  Forall2 same_group gs1 gs2 ->
  Forall run_of_key gs1 -> Forall run_of_key gs2 ->
  choose (map snd gs1) = choose (map snd gs2).
Proof.
  induction 1 as [|[k1 g1] [k2 g2] gs1 gs2 [Hk HP] _ IH]; intros F1 F2;
    [reflexivity|].
  inversion F1; inversion F2; subst. cbn [fst snd] in *.
  rewrite !choose_cons by assumption.
  rewrite (has_both_perm _ _ HP), Hk. now rewrite IH.
Qed.

(** When no two strikes are equally far from the underlying price, the
    straddle selection is the same for every enumeration of the chain. *)
Lemma straddle_select_perm (price : Z) (l1 l2 : list Contract) :
  distinct_distances price l1 -> Permutation l1 l2 ->
  Straddle.select price l1 = Straddle.select price l2.
Proof.
  intros D HP. rewrite !select_choose. unfold Straddle.groupedContracts.
  apply choose_same_groups.
  - apply (groupby_tidy_perm pair_eqb strike_expiry pair_eqb_eq
             (expiry_then_distance price)).
    + apply expiry_then_distance_trans.
    + apply strike_expiry_related.
    + now apply contracts_tidy_strike_expiry.
    + apply contracts_tidy_strike_expiry.
      now apply (distinct_distances_perm price l1).
    + now rewrite !contracts_perm.
  - apply groupby_groups. exact pair_eqb_eq.
  - apply groupby_groups. exact pair_eqb_eq.
Qed.

Lemma choose_none_iff (gs : list ((Z * Z) * list Contract)) :
  Forall run_of_key gs ->
  (choose (map snd gs) = None <->
   forall kg, In kg gs -> Straddle.has_both (snd kg) = false).
Proof.
  induction 1 as [|[k g] gs Hkg _ IH].
  - split; [intros _ ? [] | reflexivity].
  - rewrite (choose_cons k g gs Hkg).
    destruct (Straddle.has_both g) eqn:E.
    + split; [discriminate|]. intros H.
      specialize (H (k, g) (or_introl eq_refl)). simpl in H. congruence.
    + rewrite IH. split.
      * intros H kg [<-|Hin]; [exact E | now apply H].
      * intros H kg Hin. apply H. now right.
Qed.

(** When no two strikes are equally far from the underlying price, the
    straddle selection finds nothing exactly when no strike and expiry of
    the chain has both a call and a put. *)
Lemma straddle_none_iff (price : Z) (chain : list Contract) :
  distinct_distances price chain ->
  (Straddle.select price chain = None <->
   forall k e, ~ (In (call_at k e) chain /\ In (put_at k e) chain)).
Proof.
  intros D. rewrite select_choose. unfold Straddle.groupedContracts.
  set (s := contracts price chain).
  pose proof (groupby_groups pair_eqb strike_expiry pair_eqb_eq s) as G.
  fold run_of_key in G.
  destruct (groupby_tidy_complete pair_eqb strike_expiry pair_eqb_eq
              (expiry_then_distance price)
              (expiry_then_distance_trans price)
              (strike_expiry_related price) s
              (contracts_tidy_strike_expiry price chain D)) as [_ HC].
  pose proof (groupby_concat pair_eqb strike_expiry pair_eqb_eq s) as Hcat.
  rewrite (choose_none_iff _ G). rewrite Forall_forall in G. split.
  - intros H k e [Hc Hp].
    apply (contracts_In price) in Hc, Hp. fold s in Hc, Hp.
    pose proof Hc as Hc'. rewrite <- Hcat in Hc'.
    apply in_concat in Hc'. destruct Hc' as [g [Hg Hcg]].
    apply in_map_iff in Hg. destruct Hg as [[k' g'] [Eg Hin]].
    cbn [snd] in Eg. subst g'.
    destruct (G _ Hin) as [_ Hk]. cbn [fst snd] in Hk.
    rewrite Forall_forall in Hk. pose proof (Hk _ Hcg) as Ek.
    unfold strike_expiry in Ek. simpl in Ek. subst k'.
    specialize (H _ Hin). cbn [snd] in H.
    assert (Hpg : In (put_at k e) g).
    { rewrite (HC _ _ Hin). apply filter_In. split; [exact Hp|].
      unfold same_key. now apply pair_eqb_eq. }
    unfold Straddle.has_both in H. apply andb_false_iff in H.
    destruct H as [H|H];
      [assert (T : existsb is_call g = true)
      |assert (T : existsb is_put g = true)];
      try congruence; apply existsb_exists;
      [exists (call_at k e) | exists (put_at k e)]; split; trivial.
  - intros H [k g] Hin. cbn [snd].
    destruct (Straddle.has_both g) eqn:E; [exfalso|reflexivity].
    unfold Straddle.has_both in E. apply andb_true_iff in E.
    destruct E as [Ec Ep]. apply existsb_exists in Ec, Ep.
    destruct Ec as [c [Hc Rc]], Ep as [p [Hp Rp]].
    apply OptionRight_eqb_eq in Rc, Rp.
    destruct (G _ Hin) as [_ Hk]. cbn [fst snd] in Hk.
    rewrite Forall_forall in Hk.
    pose proof (Hk _ Hc) as Kc. pose proof (Hk _ Hp) as Kp.
    assert (Hs : forall x, In x g -> In x chain).
    { intros x Hx. apply (contracts_In price). fold s. rewrite <- Hcat.
      apply in_concat. exists g. split; [|exact Hx].
      apply in_map_iff. now exists (k, g). }
    apply (H (Strike c) (Expiry c)). split.
    + replace (call_at (Strike c) (Expiry c)) with c; [now apply Hs|].
      apply Contract_ext; simpl; congruence.
    + replace (put_at (Strike c) (Expiry c)) with p; [now apply Hs|].
      unfold strike_expiry in Kc, Kp. rewrite <- Kc in Kp.
      inversion Kp. apply Contract_ext; simpl; congruence.
Qed.

(** * The claims about contract selection *)

(** C1, as stated: the candidate sequence is not ordered by distance from
    the underlying price first.  With the underlying at 100, the contracts
    struck at 105 with the later expiry come before the contracts struck at
    100 with the earlier one; the straddle selection takes strike 105, and
    the strangle selection takes the later expiry although the earlier
    expiry holds the strikes nearer to the money. *)
Lemma C1_distance_is_not_primary :
  contracts 100 [call_at 100 1; put_at 100 1; call_at 105 2; put_at 105 2] =
    [call_at 105 2; put_at 105 2; call_at 100 1; put_at 100 1] /\
  ~ StronglySorted (distance_then_expiry 100)
      (contracts 100
         [call_at 100 1; put_at 100 1; call_at 105 2; put_at 105 2]) /\
  Straddle.select 100
    [call_at 100 1; put_at 100 1; call_at 105 2; put_at 105 2] =
    Some (105, 2) /\
  Strangle.select 100
    [call_at 101 1; put_at 99 1; call_at 120 2; put_at 80 2] =
    Some (call_at 120 2, put_at 80 2).
Proof.
  split; [reflexivity|]. split; [|split; reflexivity].
  intros S.
  change (contracts 100
            [call_at 100 1; put_at 100 1; call_at 105 2; put_at 105 2])
    with [call_at 105 2; put_at 105 2; call_at 100 1; put_at 100 1] in S.
  inversion S as [|? ? _ F]; subst.
  rewrite Forall_forall in F.
  assert (F' : distance_then_expiry 100 (call_at 105 2) (call_at 100 1)).
  { apply F. simpl. auto. }
  unfold distance_then_expiry, distance in F'. simpl in F'. lia.
Qed.

(** C1, amended: in both selection policies the candidate sequence is the
    chain ordered by descending expiry first, and by ascending distance of
    the strike from the underlying price among contracts of equal
    expiry. *)
Theorem C1_candidates_by_expiry_then_distance
    (price : Z) (chain : list Contract) :
  Permutation (contracts price chain) chain /\
  StronglySorted (expiry_then_distance price) (contracts price chain) /\
  Straddle.groupedContracts price chain =
    map snd (groupby pair_eqb strike_expiry (contracts price chain)) /\
  Strangle.groupedContracts price chain =
    map snd (groupby Z.eqb Expiry (contracts price chain)).
Proof.
  split; [apply contracts_perm|]. split; [apply contracts_sorted|].
  split; reflexivity.
Qed.

(** C2, as stated: on the chain of the claim the strangle selection does
    not return the call at 105 with the put at 95. *)
Lemma C2_not_nearest_pair :
  Strangle.select 100 [call_at 105 1; call_at 110 1; put_at 90 1; put_at 95 1]
  <> Some (call_at 105 1, put_at 95 1).
Proof. vm_compute. discriminate. Qed.

(** C2, amended: with the underlying at 100, one expiry and the contracts
    CALL 105, CALL 110, PUT 90, PUT 95 in any enumeration order, the
    strangle selection returns the call at 110 with the put at 90: the
    highest call strike and the lowest put strike. *)
Theorem C2_widest_pair (e : Z) (chain : list Contract) :
  Permutation [call_at 105 e; call_at 110 e; put_at 90 e; put_at 95 e] chain ->
  Strangle.select 100 chain = Some (call_at 110 e, put_at 90 e).
Proof.
  intros HP. rewrite <- (strangle_select_perm 100 _ _ HP).
  unfold Strangle.select, Strangle.groupedContracts, contracts,
    sorted_reverse, sorted, stable_sort.
  repeat (progress (simpl; rewrite ?Z.leb_refl, ?Z.eqb_refl)).
  reflexivity.
Qed.

Lemma C2_widest_pair_witness :
  Permutation [call_at 105 7; call_at 110 7; put_at 90 7; put_at 95 7]
              [put_at 90 7; put_at 95 7; call_at 105 7; call_at 110 7] /\
  Strangle.select 100
    [put_at 90 7; put_at 95 7; call_at 105 7; call_at 110 7] =
    Some (call_at 110 7, put_at 90 7).
Proof.
  split.
  - apply (Permutation_app_comm [call_at 105 7; call_at 110 7]
                                [put_at 90 7; put_at 95 7]).
  - apply (C2_widest_pair 7).
    apply (Permutation_app_comm [call_at 105 7; call_at 110 7]
                                [put_at 90 7; put_at 95 7]).
Defined.

(** C3: at this chain the strike 95 has a call and a put of the same
    expiry, yet the straddle selection finds no pair: the strikes 95 and
    105 are equally far from the underlying price, the sort leaves them
    interleaved, and the runs formed from the sequence hold one contract
    each. *)
Theorem C3_equidistant_strikes_split :
  In (call_at 95 1)
     [call_at 95 1; call_at 105 1; put_at 95 1; put_at 105 1] /\
  In (put_at 95 1)
     [call_at 95 1; call_at 105 1; put_at 95 1; put_at 105 1] /\
  Straddle.groupedContracts 100
    [call_at 95 1; call_at 105 1; put_at 95 1; put_at 105 1] =
    [[call_at 95 1]; [call_at 105 1]; [put_at 95 1]; [put_at 105 1]] /\
  Straddle.select 100
    [call_at 95 1; call_at 105 1; put_at 95 1; put_at 105 1] = None.
Proof.
  split; [simpl; auto|]. split; [simpl; auto|]. split; reflexivity.
Qed.

(** C6: a pair returned by the strangle selection is a call and a put of
    the chain with the same expiry, the call struck strictly above the
    put. *)
Theorem C6_strangle_pair_shape
    (price : Z) (chain : list Contract) (call put : Contract) :
  Strangle.select price chain = Some (call, put) ->
  Right call = Call /\ Right put = Put /\
  Strike call > Strike put /\ Expiry call = Expiry put /\
  In call chain /\ In put chain.
Proof.
  intros H. unfold Strangle.select, Strangle.groupedContracts in H.
  apply scan_sound in H.
  destruct H as [g [Hg [Hc [Hp [Rc [Rp Hs]]]]]].
  apply in_map_iff in Hg. destruct Hg as [[k g'] [Eg Hin]].
  cbn [snd] in Eg. subst g'.
  pose proof (groupby_groups Z.eqb Expiry Z.eqb_eq (contracts price chain))
    as G.
  rewrite Forall_forall in G. destruct (G _ Hin) as [_ Hk].
  cbn [fst snd] in Hk. rewrite Forall_forall in Hk.
  assert (Hs' : forall x, In x g -> In x chain).
  { intros x Hx. apply (contracts_In price).
    rewrite <- (groupby_concat Z.eqb Expiry Z.eqb_eq).
    apply in_concat. exists g. split; [|exact Hx].
    apply in_map_iff. now exists (k, g). }
  repeat split; auto.
  now rewrite (Hk _ Hc), (Hk _ Hp).
Qed.

Lemma C6_strangle_pair_shape_witness :
  Strangle.select 100
    [call_at 105 1; call_at 110 1; put_at 90 1; put_at 95 1] =
    Some (call_at 110 1, put_at 90 1) /\
  (Right (call_at 110 1) = Call /\ Right (put_at 90 1) = Put /\
   Strike (call_at 110 1) > Strike (put_at 90 1) /\
   Expiry (call_at 110 1) = Expiry (put_at 90 1) /\
   In (call_at 110 1)
      [call_at 105 1; call_at 110 1; put_at 90 1; put_at 95 1] /\
   In (put_at 90 1)
      [call_at 105 1; call_at 110 1; put_at 90 1; put_at 95 1]).
Proof.
  split; [reflexivity|].
  apply (C6_strangle_pair_shape 100
           [call_at 105 1; call_at 110 1; put_at 90 1; put_at 95 1]).
  reflexivity.
Defined.

(** C7, as stated: two enumerations of the same four contracts, with the
    same underlying price, for which the straddle selection differs.  The
    strikes 95 and 105 are equally far from 100 and expire together, so
    the one enumerated first is taken. *)
Lemma C7_straddle_depends_on_order :
  Permutation [call_at 95 1; put_at 95 1; call_at 105 1; put_at 105 1]
              [call_at 105 1; put_at 105 1; call_at 95 1; put_at 95 1] /\
  Straddle.select 100
    [call_at 95 1; put_at 95 1; call_at 105 1; put_at 105 1] = Some (95, 1) /\
  Straddle.select 100
    [call_at 105 1; put_at 105 1; call_at 95 1; put_at 95 1] = Some (105, 1) /\
  Straddle.select 100
    [call_at 95 1; put_at 95 1; call_at 105 1; put_at 105 1] <>
  Straddle.select 100
    [call_at 105 1; put_at 105 1; call_at 95 1; put_at 95 1].
Proof.
  split.
  - apply (Permutation_app_comm [call_at 95 1; put_at 95 1]
                                [call_at 105 1; put_at 105 1]).
  - split; [reflexivity|]. split; [reflexivity|]. vm_compute. discriminate.
Qed.

(** C7, amended: both selections are functions of the enumerated chain.
    The strangle selection is the same for every enumeration order of the
    chain; the straddle selection is the same for every enumeration order
    when no two different strikes of the chain are equally far from the
    underlying price. *)
Theorem C7_selection_and_enumeration_order
    (price : Z) (chain1 chain2 : list Contract) :
  Permutation chain1 chain2 ->
  Strangle.select price chain1 = Strangle.select price chain2 /\
  (distinct_distancesb price chain1 = true ->
   Straddle.select price chain1 = Straddle.select price chain2).
Proof.
  intros HP. split; [now apply strangle_select_perm|].
  intros D. apply straddle_select_perm; [|exact HP].
  now apply distinct_distancesb_spec.
Qed.

Lemma C7_selection_and_enumeration_order_witness :
  Permutation [call_at 100 1; put_at 100 1; call_at 104 2; put_at 97 2]
              [call_at 104 2; put_at 97 2; call_at 100 1; put_at 100 1] /\
  distinct_distancesb 100
    [call_at 100 1; put_at 100 1; call_at 104 2; put_at 97 2] = true /\
  Strangle.select 100
    [call_at 100 1; put_at 100 1; call_at 104 2; put_at 97 2] =
  Strangle.select 100
    [call_at 104 2; put_at 97 2; call_at 100 1; put_at 100 1] /\
  Straddle.select 100
    [call_at 100 1; put_at 100 1; call_at 104 2; put_at 97 2] =
  Straddle.select 100
    [call_at 104 2; put_at 97 2; call_at 100 1; put_at 100 1].
Proof.
  split.
  { apply (Permutation_app_comm [call_at 100 1; put_at 100 1]
                                [call_at 104 2; put_at 97 2]). }
  split; [reflexivity|]. split.
  - apply (C7_selection_and_enumeration_order 100).
    apply (Permutation_app_comm [call_at 100 1; put_at 100 1]
                                [call_at 104 2; put_at 97 2]).
  - apply (C7_selection_and_enumeration_order 100); [|reflexivity].
    apply (Permutation_app_comm [call_at 100 1; put_at 100 1]
                                [call_at 104 2; put_at 97 2]).
Defined.

(** C10: the candidate sequence is ordered by expiry first, so the runs of
    equal expiry formed by the strangle selection are one per expiry of the
    chain, and the run of an expiry holds every contract of the chain with
    that expiry. *)
Theorem C10_one_group_per_expiry (price : Z) (chain : list Contract) :
  Strangle.groupedContracts price chain =
    map snd (groupby Z.eqb Expiry (contracts price chain)) /\
  NoDup (map fst (groupby Z.eqb Expiry (contracts price chain))) /\
  (forall e g, In (e, g) (groupby Z.eqb Expiry (contracts price chain)) ->
     g <> [] /\
     g = filter (fun c => Expiry c =? e) (contracts price chain) /\
     forall c, In c g <-> In c chain /\ Expiry c = e) /\
  (forall c, In c chain ->
     In (Expiry c) (map fst (groupby Z.eqb Expiry (contracts price chain)))).
Proof.
  split; [reflexivity|].
  destruct (groupby_tidy_complete Z.eqb Expiry Z.eqb_eq later_expiry
              (fun x y z (H1 : later_expiry x y) (H2 : later_expiry y z) =>
                 Z.le_trans _ _ _ H2 H1)
              (fun x y (E : Expiry x = Expiry y) =>
                 Z.eq_le_incl _ _ (eq_sym E))
              (contracts price chain) (contracts_tidy_expiry price chain))
    as [ND HC].
  pose proof (groupby_groups Z.eqb Expiry Z.eqb_eq (contracts price chain))
    as G.
  rewrite Forall_forall in G.
  split; [exact ND|]. split.
  - intros e g Hin. destruct (G _ Hin) as [Hne _]. cbn [snd] in Hne.
    pose proof (HC _ _ Hin) as Eg. unfold same_key in Eg.
    split; [exact Hne|]. split; [exact Eg|].
    intros c. rewrite Eg, filter_In, contracts_In, Z.eqb_eq. tauto.
  - intros c Hc. apply (contracts_In price) in Hc.
    rewrite <- (groupby_concat Z.eqb Expiry Z.eqb_eq) in Hc.
    apply in_concat in Hc. destruct Hc as [g [Hg Hcg]].
    apply in_map_iff in Hg. destruct Hg as [[k g'] [Eg Hin]].
    cbn [snd] in Eg. subst g'.
    destruct (G _ Hin) as [_ Hk]. cbn [fst snd] in Hk.
    rewrite Forall_forall in Hk. rewrite (Hk _ Hcg).
    apply in_map_iff. now exists (k, g).
Qed.

(** * The claims about position verification and the end of the run *)

(** The verification raises for the first check that fails, in the order
    tag, leg count, call leg, put leg, call quantity, put quantity. *)
Lemma verify_expected_first (expectedCall expectedPut : Z) (g : PositionGroup) :
  verify_expected expectedCall expectedPut g =
  match violations expectedCall expectedPut g with
  | [] => Ok tt
  | f :: _ => Raise f
  end.
Proof.
  unfold verify_expected, violations, check, require, bind.
  destruct (String.eqb (BuyingPowerModel g)
              OptionStrategyPositionGroupBuyingPowerModel); [|reflexivity].
  destruct (Nat.eqb (length (Positions g)) 2); [|reflexivity].
  destruct (find (has_right Call) (Positions g)) as [c|]; [|reflexivity].
  destruct (find (has_right Put) (Positions g)) as [p|]; [|reflexivity].
  cbn [app].
  destruct (Quantity c =? expectedCall); [|reflexivity].
  destruct (Quantity p =? expectedPut); reflexivity.
Qed.

(** C4, as stated: this group has the wrong buying power model, three
    legs, no put leg and a call quantity of 1.  The verification raises for
    the buying power model alone; the three other failing checks are not
    reported. *)
Lemma C4_only_first_failure_reported :
  verify (mkPositionGroup "SecurityPositionGroupBuyingPowerModel"
            [mkPosition (call_at 100 1) 1; mkPosition (call_at 105 1) 2;
             mkPosition (call_at 110 1) 2]) =
    Raise (MISMATCHED_ACCOUNTING_MODEL
             "SecurityPositionGroupBuyingPowerModel") /\
  violations 2 2
    (mkPositionGroup "SecurityPositionGroupBuyingPowerModel"
       [mkPosition (call_at 100 1) 1; mkPosition (call_at 105 1) 2;
        mkPosition (call_at 110 1) 2]) =
    [MISMATCHED_ACCOUNTING_MODEL "SecurityPositionGroupBuyingPowerModel";
     UNEXPECTED_LEG_COUNT 3; MISSING_LEG Put; QUANTITY_MISMATCH Call 2 1] /\
  reported
    (verify (mkPositionGroup "SecurityPositionGroupBuyingPowerModel"
               [mkPosition (call_at 100 1) 1; mkPosition (call_at 105 1) 2;
                mkPosition (call_at 110 1) 2])) <>
  violations 2 2
    (mkPositionGroup "SecurityPositionGroupBuyingPowerModel"
       [mkPosition (call_at 100 1) 1; mkPosition (call_at 105 1) 2;
        mkPosition (call_at 110 1) 2]).
Proof.
  split; [reflexivity|]. split; [reflexivity|]. vm_compute. discriminate.
Qed.

(** C4, amended: for every position group and expected quantities the
    verification evaluates its checks in sequence and stops at the first
    one that fails, raising an exception for it: it completes exactly when
    no check fails, and otherwise what it reports is the first of the
    failing checks and nothing else, so a group that violates several
    checks yields a single failure code, the earliest. *)
Theorem C4_verify_raises_one_failing_check
    (expectedCall expectedPut : Z) (g : PositionGroup) :
  (verify_expected expectedCall expectedPut g = Ok tt <->
   violations expectedCall expectedPut g = []) /\
  reported (verify_expected expectedCall expectedPut g) =
    firstn 1 (violations expectedCall expectedPut g) /\
  incl (reported (verify_expected expectedCall expectedPut g))
       (violations expectedCall expectedPut g) /\
  (length (reported (verify_expected expectedCall expectedPut g)) <= 1)%nat.
Proof.
  rewrite verify_expected_first.
  destruct (violations expectedCall expectedPut g) as [|f rest]; simpl.
  - repeat split; auto. intros x [].
  - repeat split; try discriminate; auto.
    intros x [<-|[]]. now left.
Qed.

(** C9: the verification runs its checks in the order buying power model,
    leg count, call leg, put leg, call quantity, put quantity, and raises
    for the first one that fails; the checks after it have no part in the
    result.  With the quantities of the source this is [verify]. *)
Theorem C9_verify_stops_at_first_failure
    (expectedCall expectedPut : Z) (g : PositionGroup) :
  verify_expected expectedCall expectedPut g =
    match violations expectedCall expectedPut g with
    | [] => Ok tt
    | f :: _ => Raise f
    end /\
  verify g = match violations 2 2 g with
             | [] => Ok tt
             | f :: _ => Raise f
             end /\
  reported (verify_expected expectedCall expectedPut g) =
    firstn 1 (violations expectedCall expectedPut g).
Proof.
  split; [apply verify_expected_first|].
  split; [apply verify_expected_first|].
  rewrite verify_expected_first.
  now destruct (violations expectedCall expectedPut g).
Qed.

Lemma two_checks (x y a b : Z) (f1 f2 : Failure) :
  (check (x =? a) f1 ;; check (y =? b) f2) = Ok tt <-> x = a /\ y = b.
Proof.
  unfold check, bind.
  destruct (Z.eqb_spec x a), (Z.eqb_spec y b); split;
    try discriminate; try tauto.
Qed.

(** C5: the verification succeeds exactly when the buying power model is
    the option strategy one, there are two legs, one of them a call and one
    a put, and the call and the put have the expected quantities; the group
    with a call of +2 and a put of +2 passes for the expected quantities
    (+2, +2). *)
Theorem C5_verify_ok_iff :
  (forall (expectedCall expectedPut : Z) (g : PositionGroup),
     verify_expected expectedCall expectedPut g = Ok tt <->
     BuyingPowerModel g = OptionStrategyPositionGroupBuyingPowerModel /\
     length (Positions g) = 2%nat /\
     count_right Call (Positions g) = 1%nat /\
     count_right Put (Positions g) = 1%nat /\
     (forall p, In p (Positions g) -> Right (Symbol p) = Call ->
                Quantity p = expectedCall) /\
     (forall p, In p (Positions g) -> Right (Symbol p) = Put ->
                Quantity p = expectedPut)) /\
  (forall callStrike callExpiry putStrike putExpiry : Z,
     verify_expected 2 2
       (mkPositionGroup OptionStrategyPositionGroupBuyingPowerModel
          [mkPosition (call_at callStrike callExpiry) 2;
           mkPosition (put_at putStrike putExpiry) 2]) = Ok tt) /\
  verify (mkPositionGroup OptionStrategyPositionGroupBuyingPowerModel
            [mkPosition (call_at 750 1) 2; mkPosition (put_at 750 1) 2]) =
    Ok tt.
Proof.
  split; [|split; [|reflexivity]].
  - intros ec ep [tag positions]. unfold verify_expected.
    cbn [BuyingPowerModel Positions].
    unfold check at 1. unfold bind at 1.
    destruct (String.eqb tag OptionStrategyPositionGroupBuyingPowerModel)
      eqn:Et.
    2:{ split; [discriminate|]. intros [E _]. apply String.eqb_neq in Et.
        contradiction. }
    apply String.eqb_eq in Et.
    destruct positions as [|a [|b [|c l]]];
      try (split; [discriminate | intros [_ [E _]]; discriminate]).
    destruct a as [[ra ka ea] qa], b as [[rb kb eb] qb].
    unfold count_right, has_right.
    destruct ra, rb; cbn.
    + split; [discriminate | intros (_ & _ & E1 & E2 & _); discriminate].
    + rewrite two_checks. split.
      * intros [-> ->].
        repeat split; trivial; intros p [<-|[<-|[]]]; cbn; congruence.
      * intros (_ & _ & _ & _ & H1 & H2).
        split; [apply (H1 (mkPosition (mkContract Call ka ea) qa))
               | apply (H2 (mkPosition (mkContract Put kb eb) qb))];
          cbn; auto.
    + rewrite two_checks. split.
      * intros [-> ->].
        repeat split; trivial; intros p [<-|[<-|[]]]; cbn; congruence.
      * intros (_ & _ & _ & _ & H1 & H2).
        split; [apply (H1 (mkPosition (mkContract Call kb eb) qb))
               | apply (H2 (mkPosition (mkContract Put ka ea) qa))];
          cbn; auto.
    + split; [discriminate | intros (_ & _ & E1 & E2 & _); discriminate].
  - reflexivity.
Qed.

(** C8: the check at the end of the run fails exactly when the portfolio is
    still invested or the number of filled orders is not 4.  The two
    failures are different; an invested portfolio is reported as a residual
    position whatever the number of filled orders, and otherwise a wrong
    number is reported with the number found. *)
Theorem C8_end_of_run_check :
  (forall (invested : bool) (orders : list OrderStatus),
     OnEndOfAlgorithm invested orders <> Ok tt <->
     invested = true \/ length (filter is_Filled orders) <> 4%nat) /\
  (forall orders : list OrderStatus,
     OnEndOfAlgorithm true orders = Raise RESIDUAL_POSITION) /\
  (forall orders : list OrderStatus,
     OnEndOfAlgorithm false orders =
     if Nat.eqb (length (filter is_Filled orders)) 4 then Ok tt
     else Raise (ORDER_COUNT_MISMATCH (length (filter is_Filled orders)))) /\
  (forall n : nat, RESIDUAL_POSITION <> ORDER_COUNT_MISMATCH n).
Proof.
  split; [|split; [reflexivity | split; [reflexivity | discriminate]]].
  intros invested orders. unfold OnEndOfAlgorithm, check, bind.
  destruct invested; simpl.
  - split; [auto | discriminate].
  - destruct (Nat.eqb_spec (length (filter is_Filled orders)) 4) as [E|E].
    + split; [congruence|]. intros [H|H]; [discriminate | contradiction].
    + split; [auto | discriminate].
Qed.

(** * Further properties of the selection *)

Lemma StronglySorted_app {A : Type} (R : A -> A -> Prop) (l1 l2 : list A) :
  StronglySorted R (l1 ++ l2) ->
  StronglySorted R l2 /\ forall x y, In x l1 -> In y l2 -> R x y.
Proof.
  induction l1 as [|a l1 IH]; simpl; intros S.
  - split; [exact S | intros x y []].
  - inversion S as [|? ? S' Ha]; subst.
    destruct (IH S') as [S2 H]. split; [exact S2|].
    intros x y [<-|Hx] Hy; [|now apply H].
    rewrite Forall_forall in Ha. apply Ha. apply in_or_app. now right.
Qed.

(** In the groups of a sorted list, the elements of a group come before
    the elements of every later group. *)
Lemma groupby_order {A K : Type} (K_eqb : K -> K -> bool) (key : A -> K)
    (R : A -> A -> Prop) (s : list A)
    (pre : list (K * list A)) (kg : K * list A) (post : list (K * list A)) :
  (forall a b, K_eqb a b = true <-> a = b) ->
  StronglySorted R s ->
  groupby K_eqb key s = pre ++ kg :: post ->
  forall kg' x y, In kg' post -> In x (snd kg) -> In y (snd kg') -> R x y.
Proof.
  intros HK S E kg' x y Hin Hx Hy.
  pose proof (groupby_concat K_eqb key HK s) as Hcat.
  rewrite E, map_app, concat_app in Hcat. cbn [map concat] in Hcat.
  rewrite <- Hcat in S.
  apply StronglySorted_app in S. destruct S as [S _].
  apply StronglySorted_app in S. destruct S as [_ H].
  apply H; [exact Hx|]. apply in_concat. exists (snd kg'). split; [|exact Hy].
  now apply in_map.
Qed.

(** ** The first call and the first put of a group *)

Lemma callContracts_head (g : list Contract) (c : Contract)
    (t : list Contract) :
  Strangle.callContracts g = c :: t ->
  In c g /\ Right c = Call /\
  forall c', In c' g -> Right c' = Call -> Strike c' <= Strike c.
Proof.
  unfold Strangle.callContracts, sorted_reverse. intros E.
  apply stable_sort_head in E.
  - destruct E as [Hc Hmax]. apply filter_In in Hc. destruct Hc as [Hc Rc].
    apply OptionRight_eqb_eq in Rc. repeat split; trivial.
    intros c' Hc' Rc'. apply Z.leb_le. apply Hmax. apply filter_In.
    split; [exact Hc' | now apply OptionRight_eqb_eq].
  - intros x y. destruct (Z.le_ge_cases (Strike x) (Strike y));
      [right | left]; now apply Z.leb_le.
  - intros x y z H1 H2. apply Z.leb_le in H1, H2. apply Z.leb_le. lia.
Qed.

Lemma putContracts_head (g : list Contract) (q : Contract)
    (t : list Contract) :
  Strangle.putContracts g = q :: t ->
  In q g /\ Right q = Put /\
  forall q', In q' g -> Right q' = Put -> Strike q <= Strike q'.
Proof.
  unfold Strangle.putContracts, sorted. intros E.
  apply stable_sort_head in E.
  - destruct E as [Hq Hmin]. apply filter_In in Hq. destruct Hq as [Hq Rq].
    apply OptionRight_eqb_eq in Rq. repeat split; trivial.
    intros q' Hq' Rq'. apply Z.leb_le. apply Hmin. apply filter_In.
    split; [exact Hq' | now apply OptionRight_eqb_eq].
  - intros x y. destruct (Z.le_ge_cases (Strike x) (Strike y));
      [left | right]; now apply Z.leb_le.
  - intros x y z H1 H2. apply Z.leb_le in H1, H2. apply Z.leb_le. lia.
Qed.

Lemma callContracts_nil (g : list Contract) :
  Strangle.callContracts g = [] ->
  forall c', In c' g -> Right c' <> Call.
Proof.
  unfold Strangle.callContracts, sorted_reverse. intros E c' Hc' Rc'.
  assert (H : In c' (stable_sort (fun x y => Strike y <=? Strike x)
                       (filter is_call g))).
  { apply stable_sort_In. apply filter_In.
    split; [exact Hc' | now apply OptionRight_eqb_eq]. }
  rewrite E in H. destruct H.
Qed.

Lemma putContracts_nil (g : list Contract) :
  Strangle.putContracts g = [] ->
  forall q', In q' g -> Right q' <> Put.
Proof.
  unfold Strangle.putContracts, sorted. intros E q' Hq' Rq'.
  assert (H : In q' (stable_sort (fun x y => Strike x <=? Strike y)
                       (filter is_put g))).
  { apply stable_sort_In. apply filter_In.
    split; [exact Hq' | now apply OptionRight_eqb_eq]. }
  rewrite E in H. destruct H.
Qed.

(** One turn of the loop: it passes over a group without a call struck
    above a put, and otherwise leaves with the highest struck call and the
    lowest struck put of the group. *)
Lemma scan_step (g : list Contract) (rest : list (list Contract)) :
  (Strangle.scan (g :: rest) = Strangle.scan rest /\ no_strangle g) \/
  (exists c q, Strangle.scan (g :: rest) = Some (c, q) /\ picked g c q).
Proof.
  cbn [Strangle.scan].
  destruct (Strangle.callContracts g) as [|c0 cs] eqn:Ec.
  { left. split; [reflexivity|]. intros c q Hc _ Rc _.
    now destruct (callContracts_nil g Ec c Hc). }
  destruct (Strangle.putContracts g) as [|q0 qs] eqn:Eq.
  { left. split; [reflexivity|]. intros c q _ Hq _ Rq.
    now destruct (putContracts_nil g Eq q Hq). }
  destruct (callContracts_head g c0 cs Ec) as [Hc0 [Rc0 Mc]].
  destruct (putContracts_head g q0 qs Eq) as [Hq0 [Rq0 Mq]].
  destruct (Strike c0 >? Strike q0) eqn:Es.
  - right. exists c0, q0. apply Z.gtb_lt in Es.
    split; [reflexivity|]. unfold picked. repeat split; trivial. lia.
  - left. split; [reflexivity|]. intros c q Hc Hq Rc Rq.
    assert (Strike c0 <= Strike q0).
    { destruct (Z.gtb_spec (Strike c0) (Strike q0)); [discriminate | lia]. }
    specialize (Mc c Hc Rc). specialize (Mq q Hq Rq). lia.
Qed.

Lemma picked_not_no_strangle (g : list Contract) (c q : Contract) :
  picked g c q -> ~ no_strangle g.
Proof.
  intros (Hc & Hq & Rc & Rq & Hs & _) N.
  specialize (N c q Hc Hq Rc Rq). lia.
Qed.

Lemma scan_None_iff (groups : list (list Contract)) :
  Strangle.scan groups = None <-> Forall no_strangle groups.
Proof.
  induction groups as [|g rest IH]; [split; auto|].
  destruct (scan_step g rest) as [[E N]|[c [q [E Hp]]]]; rewrite E.
  - rewrite IH. split; [now constructor | intros H; now inversion H].
  - split; [discriminate|]. intros H. inversion H; subst.
    now destruct (picked_not_no_strangle g c q).
Qed.

Lemma scan_Some_split (groups : list (list Contract)) (c q : Contract) :
  Strangle.scan groups = Some (c, q) ->
  exists pre g post,
    groups = pre ++ g :: post /\ Forall no_strangle pre /\ picked g c q.
Proof.
  induction groups as [|g rest IH]; [discriminate|]. intros H.
  destruct (scan_step g rest) as [[E N]|[c' [q' [E Hp]]]]; rewrite E in H.
  - destruct (IH H) as [pre [g' [post [Eg [Hpre Hg']]]]].
    exists (g :: pre), g', post. split; [simpl; now rewrite Eg|].
    split; [now constructor | exact Hg'].
  - inversion H; subst. exists [], g, rest.
    split; [reflexivity | split; [constructor | exact Hp]].
Qed.

(** ** The groups of the strangle selection and the chain *)

Lemma expiry_group_members (price : Z) (chain : list Contract)
    (e : Z) (g : list Contract) :
  In (e, g) (groupby Z.eqb Expiry (contracts price chain)) ->
  forall c, In c g <-> In c chain /\ Expiry c = e.
Proof.
  intros Hin c.
  destruct (groupby_tidy_complete Z.eqb Expiry Z.eqb_eq later_expiry
              (fun x y z (H1 : later_expiry x y) (H2 : later_expiry y z) =>
                 Z.le_trans _ _ _ H2 H1)
              (fun x y (E : Expiry x = Expiry y) =>
                 Z.eq_le_incl _ _ (eq_sym E))
              (contracts price chain) (contracts_tidy_expiry price chain))
    as [_ HC].
  rewrite (HC _ _ Hin). unfold same_key.
  rewrite filter_In, contracts_In, Z.eqb_eq. tauto.
Qed.

Lemma expiry_group_exists (price : Z) (chain : list Contract) (c : Contract) :
  In c chain ->
  exists g, In (Expiry c, g) (groupby Z.eqb Expiry (contracts price chain)) /\
            In c g.
Proof.
  intros Hc. apply (contracts_In price) in Hc.
  rewrite <- (groupby_concat Z.eqb Expiry Z.eqb_eq) in Hc.
  apply in_concat in Hc. destruct Hc as [g [Hg Hcg]].
  apply in_map_iff in Hg. destruct Hg as [[k g'] [Eg Hin]].
  cbn [snd] in Eg. subst g'. exists g.
  pose proof (groupby_groups Z.eqb Expiry Z.eqb_eq (contracts price chain))
    as G.
  rewrite Forall_forall in G. destruct (G _ Hin) as [_ Hk].
  cbn [fst snd] in Hk. rewrite Forall_forall in Hk.
  rewrite (Hk _ Hcg). now split.
Qed.

(** The strangle selection finds nothing exactly when no expiry of the
    chain has a call struck above a put. *)
Lemma strangle_select_None (price : Z) (chain : list Contract) :
  Strangle.select price chain = None <->
  forall c q, In c chain -> In q chain -> Right c = Call -> Right q = Put ->
    Expiry c = Expiry q -> Strike c <= Strike q.
Proof.
  unfold Strangle.select, Strangle.groupedContracts.
  rewrite scan_None_iff, Forall_forall. split.
  - intros H c q Hc Hq Rc Rq E.
    destruct (expiry_group_exists price chain c Hc) as [g [Hin Hcg]].
    apply (H g).
    + apply in_map_iff. now exists (Expiry c, g).
    + exact Hcg.
    + apply (expiry_group_members price chain _ g Hin). now split.
    + exact Rc.
    + exact Rq.
  - intros H g Hg c q Hc Hq Rc Rq.
    apply in_map_iff in Hg. destruct Hg as [[k g'] [Eg Hin]].
    cbn [snd] in Eg. subst g'.
    apply (expiry_group_members price chain _ g Hin) in Hc, Hq.
    destruct Hc as [Hc Ec], Hq as [Hq Eq]. apply H; trivial. congruence.
Qed.

Lemma strangle_select_Some (price : Z) (chain : list Contract)
    (c q : Contract) :
  Strangle.select price chain = Some (c, q) -> strangle_best chain c q.
Proof.
  unfold Strangle.select, Strangle.groupedContracts. intros H.
  apply scan_Some_split in H.
  destruct H as [pre [g [post [E [Hpre Hp]]]]].
  apply map_eq_app in E. destruct E as [gpre [grest [E [Epre Erest]]]].
  apply map_eq_cons in Erest.
  destruct Erest as [[k g'] [gpost [Erest [Eg Epost]]]].
  cbn [snd] in Eg. subst g' grest pre post.
  set (gs := groupby Z.eqb Expiry (contracts price chain)) in *.
  assert (Hin : In (k, g) gs).
  { rewrite E. apply in_or_app. right. now left. }
  pose proof (expiry_group_members price chain k g Hin) as M.
  destruct Hp as (Hc & Hq & Rc & Rq & Hs & Mc & Mq).
  destruct (proj1 (M c) Hc) as [Ic Ec]. destruct (proj1 (M q) Hq) as [Iq Eq].
  unfold strangle_best. repeat split; trivial; try congruence.
  - intros c' Hc' Rc' Ec'. apply Mc; [|exact Rc']. apply M. split; congruence.
  - intros q' Hq' Rq' Eq'. apply Mq; [|exact Rq']. apply M. split; congruence.
  - intros c' q' Hc' Hq' Rc' Rq' E' Hs'.
    destruct (expiry_group_exists price chain c' Hc') as [g' [Hin' Hcg']].
    fold gs in Hin'.
    assert (Hqg' : In q' g').
    { apply (expiry_group_members price chain _ g' Hin'). now split. }
    rewrite E in Hin'. apply in_app_or in Hin'.
    destruct Hin' as [Hin'|[Hin'|Hin']].
    + exfalso. rewrite Forall_forall in Hpre.
      assert (N : no_strangle g').
      { apply Hpre. apply in_map_iff. now exists (Expiry c', g'). }
      specialize (N c' q' Hcg' Hqg' Rc' Rq'). lia.
    + inversion Hin'. lia.
    + apply (groupby_order Z.eqb Expiry later_expiry (contracts price chain)
               gpre (k, g) gpost Z.eqb_eq
               (proj1 (contracts_tidy_expiry price chain)) E
               (Expiry c', g') c c' Hin' Hc Hcg').
Qed.

Lemma strangle_best_unique (chain : list Contract) (c q c' q' : Contract) :
  strangle_best chain c q -> strangle_best chain c' q' -> c = c' /\ q = q'.
Proof.
  intros (Ic & Iq & Rc & Rq & E & Hs & Mc & Mq & L)
         (Ic' & Iq' & Rc' & Rq' & E' & Hs' & Mc' & Mq' & L').
  assert (Ee : Expiry c = Expiry c').
  { pose proof (L c' q' Ic' Iq' Rc' Rq' E' Hs').
    pose proof (L' c q Ic Iq Rc Rq E Hs). lia. }
  split; apply Contract_ext; try congruence.
  - pose proof (Mc c' Ic' Rc' (eq_sym Ee)).
    pose proof (Mc' c Ic Rc Ee). lia.
  - assert (Eq1 : Expiry q' = Expiry c) by congruence.
    assert (Eq2 : Expiry q = Expiry c') by congruence.
    pose proof (Mq q' Iq' Rq' Eq1). pose proof (Mq' q Iq Rq Eq2). lia.
Qed.

(** X1.  The strangle selection returns a pair exactly when the pair is a
    call and a put of the chain with one expiry, the call struck above the
    put, taken at the latest expiry that has a call struck above a put,
    with the highest struck call and the lowest struck put of that
    expiry. *)
Theorem X1_strangle_select_is_best
    (price : Z) (chain : list Contract) (c q : Contract) :
  Strangle.select price chain = Some (c, q) <-> strangle_best chain c q.
Proof.
  split; [apply strangle_select_Some|]. intros B.
  destruct (Strangle.select price chain) as [[c' q']|] eqn:E.
  - apply strangle_select_Some in E.
    destruct (strangle_best_unique chain c q c' q' B E) as [-> ->].
    reflexivity.
  - exfalso. destruct B as (Ic & Iq & Rc & Rq & Ee & Hs & _).
    pose proof (proj1 (strangle_select_None price chain) E c q
                  Ic Iq Rc Rq Ee). lia.
Qed.

(** X2.  The strangle selection returns no pair exactly when the chain
    has no call and put of one expiry with the call struck above the
    put. *)
Theorem X2_strangle_select_none_iff (price : Z) (chain : list Contract) :
  Strangle.select price chain = None <->
  forall c q, In c chain -> In q chain -> Right c = Call -> Right q = Put ->
    Expiry c = Expiry q -> Strike c <= Strike q.
Proof. apply strangle_select_None. Qed.

(** X3.  The underlying price has no part in the strangle selection: the
    sort by distance from the price changes the order inside an expiry
    only, and the loop takes the highest call and the lowest put of the
    expiry whatever their order. *)
Theorem X3_strangle_select_ignores_price
    (price1 price2 : Z) (chain : list Contract) :
  Strangle.select price1 chain = Strangle.select price2 chain.
Proof.
  unfold Strangle.select, Strangle.groupedContracts.
  apply scan_same_groups.
  - apply (groupby_tidy_perm Z.eqb Expiry Z.eqb_eq later_expiry).
    + unfold later_expiry. lia.
    + unfold later_expiry. lia.
    + apply contracts_tidy_expiry.
    + apply contracts_tidy_expiry.
    + now rewrite !contracts_perm.
  - apply groupby_groups. exact Z.eqb_eq.
Qed.

(** ** The groups of the straddle selection and the chain *)

Lemma choose_Some_split (gs : list ((Z * Z) * list Contract)) (k : Z * Z) :
  Forall run_of_key gs ->
  choose (map snd gs) = Some k ->
  exists pre g post,
    gs = pre ++ (k, g) :: post /\ Straddle.has_both g = true /\
    Forall (fun kg => Straddle.has_both (snd kg) = false) pre.
Proof.
  induction 1 as [|[k' g] gs Hkg _ IH]; [discriminate|].
  rewrite (choose_cons k' g gs Hkg).
  destruct (Straddle.has_both g) eqn:E.
  - intros H. inversion H; subst. exists [], g, gs. repeat split; trivial.
  - intros H. destruct (IH H) as [pre [g' [post [Eg [Hb Hpre]]]]].
    exists ((k', g) :: pre), g', post.
    split; [simpl; now rewrite Eg|]. split; [exact Hb|]. now constructor.
Qed.

Lemma has_both_members (k e : Z) (g : list Contract) :
  Forall (fun x => strike_expiry x = (k, e)) g ->
  (Straddle.has_both g = true <-> In (call_at k e) g /\ In (put_at k e) g).
Proof.
  intros Hk. rewrite Forall_forall in Hk.
  unfold Straddle.has_both. rewrite andb_true_iff, !existsb_exists. split.
  - intros [[c [Hc Rc]] [q [Hq Rq]]].
    apply OptionRight_eqb_eq in Rc, Rq.
    pose proof (Hk _ Hc) as Kc. pose proof (Hk _ Hq) as Kq.
    unfold strike_expiry in Kc, Kq.
    injection Kc as Kc1 Kc2. injection Kq as Kq1 Kq2.
    split.
    + replace (call_at k e) with c; [exact Hc|].
      apply Contract_ext; simpl; congruence.
    + replace (put_at k e) with q; [exact Hq|].
      apply Contract_ext; simpl; congruence.
  - intros [Hc Hq]. split;
      [exists (call_at k e) | exists (put_at k e)]; now split.
Qed.

Lemma straddle_group_in_chain (price : Z) (chain : list Contract)
    (kg : (Z * Z) * list Contract) (x : Contract) :
  In kg (groupby pair_eqb strike_expiry (contracts price chain)) ->
  In x (snd kg) -> In x chain.
Proof.
  intros Hin Hx. apply (contracts_In price).
  rewrite <- (groupby_concat pair_eqb strike_expiry pair_eqb_eq).
  apply in_concat. exists (snd kg). split; [|exact Hx]. now apply in_map.
Qed.

(** The strike and expiry the straddle selection returns have a call and
    a put in the chain. *)
Lemma straddle_select_sound (price : Z) (chain : list Contract) (k e : Z) :
  Straddle.select price chain = Some (k, e) -> has_straddle chain k e.
Proof.
  rewrite select_choose. unfold Straddle.groupedContracts. intros H.
  pose proof (groupby_groups pair_eqb strike_expiry pair_eqb_eq
                (contracts price chain)) as G.
  fold run_of_key in G.
  destruct (choose_Some_split _ _ G H) as [pre [g [post [E [Hb _]]]]].
  assert (Hin : In ((k, e), g)
                   (groupby pair_eqb strike_expiry (contracts price chain))).
  { rewrite E. apply in_or_app. right. now left. }
  rewrite Forall_forall in G. destruct (G _ Hin) as [_ Hk].
  cbn [fst snd] in Hk.
  apply (has_both_members k e g Hk) in Hb. destruct Hb as [Hc Hq].
  split; eapply straddle_group_in_chain; eauto.
Qed.

Lemma straddle_select_Some (price : Z) (chain : list Contract) (k e : Z) :
  distinct_distances price chain ->
  Straddle.select price chain = Some (k, e) ->
  straddle_best price chain k e.
Proof.
  intros D H. split; [now apply (straddle_select_sound price)|].
  rewrite select_choose in H. unfold Straddle.groupedContracts in H.
  set (s := contracts price chain) in *.
  pose proof (groupby_groups pair_eqb strike_expiry pair_eqb_eq s) as G.
  fold run_of_key in G.
  destruct (choose_Some_split _ _ G H) as [pre [g [post [E [Hb Hpre]]]]].
  pose proof (contracts_tidy_strike_expiry price chain D) as T. fold s in T.
  destruct (groupby_tidy_complete pair_eqb strike_expiry pair_eqb_eq
              (expiry_then_distance price)
              (expiry_then_distance_trans price)
              (strike_expiry_related price) s T) as [_ HC].
  pose proof (groupby_concat pair_eqb strike_expiry pair_eqb_eq s) as Hcat.
  rewrite Forall_forall in G.
  assert (Hin : In ((k, e), g) (groupby pair_eqb strike_expiry s)).
  { rewrite E. apply in_or_app. right. now left. }
  destruct (G _ Hin) as [_ Hk]. cbn [fst snd] in Hk.
  destruct (proj1 (has_both_members k e g Hk) Hb) as [Hcg _].
  intros k' e' [Hc' Hq'].
  apply (contracts_In price) in Hc', Hq'. fold s in Hc', Hq'.
  pose proof Hc' as Hc''. rewrite <- Hcat in Hc''.
  apply in_concat in Hc''. destruct Hc'' as [g' [Hg' Hcg']].
  apply in_map_iff in Hg'. destruct Hg' as [[k0 g0] [Eg Hin']].
  cbn [snd] in Eg. subst g0.
  destruct (G _ Hin') as [_ Hk']. cbn [fst snd] in Hk'.
  pose proof Hk' as Hk''. rewrite Forall_forall in Hk''.
  pose proof (Hk'' _ Hcg') as Ek. unfold strike_expiry in Ek. simpl in Ek.
  subst k0.
  assert (Hb' : Straddle.has_both g' = true).
  { apply (has_both_members k' e' g' Hk'). split; [exact Hcg'|].
    rewrite (HC _ _ Hin'). apply filter_In. split; [exact Hq'|].
    unfold same_key. now apply pair_eqb_eq. }
  rewrite E in Hin'. apply in_app_or in Hin'.
  destruct Hin' as [Hin'|[Hin'|Hin']].
  - exfalso. rewrite Forall_forall in Hpre.
    specialize (Hpre _ Hin'). cbn [snd] in Hpre. congruence.
  - inversion Hin'; subst. right. split; [reflexivity | lia].
  - pose proof (groupby_order pair_eqb strike_expiry
                  (expiry_then_distance price) s pre ((k, e), g) post
                  pair_eqb_eq (proj1 T) E ((k', e'), g')
                  (call_at k e) (call_at k' e') Hin' Hcg Hcg') as O.
    unfold expiry_then_distance, distance in O. simpl in O. lia.
Qed.

(** X4.  Whatever the chain, the strike and expiry the straddle selection
    returns have both a call and a put in the chain. *)
Theorem X4_straddle_select_sound
    (price : Z) (chain : list Contract) (k e : Z) :
  Straddle.select price chain = Some (k, e) ->
  In (call_at k e) chain /\ In (put_at k e) chain.
Proof. apply straddle_select_sound. Qed.

Lemma X4_straddle_select_sound_witness :
  Straddle.select 100
    [call_at 95 1; put_at 100 2; put_at 95 1; call_at 100 1] = Some (95, 1) /\
  (In (call_at 95 1)
      [call_at 95 1; put_at 100 2; put_at 95 1; call_at 100 1] /\
   In (put_at 95 1)
      [call_at 95 1; put_at 100 2; put_at 95 1; call_at 100 1]).
Proof.
  split; [reflexivity|].
  apply (X4_straddle_select_sound 100). reflexivity.
Defined.

(** X5.  When no two different strikes of the chain are equally far from
    the underlying price, the straddle selection returns a strike and
    expiry exactly when they have a call and a put in the chain, no later
    expiry has a call and a put at one strike, and no strike with a call
    and a put at that expiry is nearer to the underlying price. *)
Theorem X5_straddle_select_is_best
    (price : Z) (chain : list Contract) (k e : Z) :
  distinct_distancesb price chain = true ->
  (Straddle.select price chain = Some (k, e) <->
   straddle_best price chain k e).
Proof.
  intros Db. pose proof (distinct_distancesb_spec price chain Db) as D.
  split; [now apply straddle_select_Some|]. intros [Hs Hbest].
  destruct (Straddle.select price chain) as [[k' e']|] eqn:E.
  - apply (straddle_select_Some price chain k' e' D) in E.
    destruct E as [Hs' Hbest'].
    pose proof (Hbest k' e' Hs') as O1. pose proof (Hbest' k e Hs) as O2.
    assert (Ee : e' = e) by lia. subst e'.
    assert (Ek : k' = k).
    { destruct Hs as [Hc _], Hs' as [Hc' _].
      apply (D (call_at k' e) (call_at k e) Hc' Hc).
      unfold distance. simpl. lia. }
    now subst k'.
  - exfalso. apply (proj1 (straddle_none_iff price chain D) E k e).
    exact Hs.
Qed.

Lemma X5_straddle_select_is_best_witness :
  distinct_distancesb 100
    [call_at 100 1; put_at 100 1; call_at 104 2; put_at 104 2;
     call_at 101 2; put_at 101 2; call_at 97 2] = true /\
  Straddle.select 100
    [call_at 100 1; put_at 100 1; call_at 104 2; put_at 104 2;
     call_at 101 2; put_at 101 2; call_at 97 2] = Some (101, 2) /\
  straddle_best 100
    [call_at 100 1; put_at 100 1; call_at 104 2; put_at 104 2;
     call_at 101 2; put_at 101 2; call_at 97 2] 101 2.
Proof.
  split; [reflexivity|]. split; [reflexivity|].
  apply (X5_straddle_select_is_best 100); reflexivity.
Defined.

(** X6.  When no two different strikes of the chain are equally far from
    the underlying price, the straddle selection returns nothing exactly
    when no strike and expiry of the chain has both a call and a put. *)
Theorem X6_straddle_select_none_iff (price : Z) (chain : list Contract) :
  distinct_distancesb price chain = true ->
  (Straddle.select price chain = None <->
   forall k e, ~ (In (call_at k e) chain /\ In (put_at k e) chain)).
Proof.
  intros Db. apply straddle_none_iff. now apply distinct_distancesb_spec.
Qed.

Lemma X6_straddle_select_none_iff_witness :
  distinct_distancesb 100 [call_at 100 1; put_at 100 2; put_at 103 1] = true /\
  (Straddle.select 100 [call_at 100 1; put_at 100 2; put_at 103 1] = None <->
   forall k e, ~ (In (call_at k e)
                     [call_at 100 1; put_at 100 2; put_at 103 1] /\
                  In (put_at k e)
                     [call_at 100 1; put_at 100 2; put_at 103 1])).
Proof.
  split; [reflexivity|].
  apply (X6_straddle_select_none_iff 100). reflexivity.
Defined.

(** X7.  On a chain without a call, or without a put, both selections
    return nothing. *)
Theorem X7_one_side_missing (price : Z) (chain : list Contract) :
  existsb is_call chain = false \/ existsb is_put chain = false ->
  Straddle.select price chain = None /\ Strangle.select price chain = None.
Proof.
  intros H.
  assert (N : forall c q, In c chain -> In q chain ->
                Right c = Call -> Right q = Put -> False).
  { intros c q Hc Hq Rc Rq.
    destruct H as [H|H];
      [assert (T : existsb is_call chain = true)
      |assert (T : existsb is_put chain = true)];
      try congruence; apply existsb_exists;
      [exists c | exists q]; split; trivial; now apply OptionRight_eqb_eq. }
  split.
  - destruct (Straddle.select price chain) as [[k e]|] eqn:E; [|reflexivity].
    exfalso. destruct (straddle_select_sound price chain k e E) as [Hc Hq].
    now apply (N _ _ Hc Hq).
  - apply strangle_select_None. intros c q Hc Hq Rc Rq _.
    now destruct (N c q Hc Hq Rc Rq).
Qed.

Lemma X7_one_side_missing_witness :
  (existsb is_call [put_at 95 1; put_at 105 1; put_at 100 2] = false \/
   existsb is_put [put_at 95 1; put_at 105 1; put_at 100 2] = false) /\
  (Straddle.select 100 [put_at 95 1; put_at 105 1; put_at 100 2] = None /\
   Strangle.select 100 [put_at 95 1; put_at 105 1; put_at 100 2] = None).
Proof.
  split; [left; reflexivity|].
  apply (X7_one_side_missing 100). left. reflexivity.
Defined.

(** ** Ties in the candidate sequence *)

Lemma filter_andb {A : Type} (f g : A -> bool) (l : list A) :
  filter (fun x => f x && g x) l = filter g (filter f l).
Proof.
  induction l as [|x l IH]; [reflexivity|]. cbn [filter].
  destruct (f x); cbn [andb filter]; [|exact IH].
  destruct (g x); now rewrite IH.
Qed.

Lemma filter_comm {A : Type} (f g : A -> bool) (l : list A) :
  filter f (filter g l) = filter g (filter f l).
Proof.
  induction l as [|x l IH]; [reflexivity|]. cbn [filter].
  destruct (f x) eqn:Ef, (g x) eqn:Eg; cbn [filter];
    rewrite ?Ef, ?Eg, IH; reflexivity.
Qed.

(** X8.  Contracts with the same expiry and the same distance from the
    underlying price stand in the candidate sequence in the order in
    which the chain enumerates them. *)
Theorem X8_ties_keep_enumeration_order
    (price : Z) (chain : list Contract) (e d : Z) :
  filter (fun c => (Expiry c =? e) && (distance price c =? d))
         (contracts price chain) =
  filter (fun c => (Expiry c =? e) && (distance price c =? d)) chain.
Proof.
  rewrite !filter_andb. unfold contracts.
  rewrite (sorted_reverse_stable Expiry).
  rewrite filter_comm, (sorted_stable (distance price)).
  apply filter_comm.
Qed.

(** * Further properties of the verification *)

Lemma find_right_and_quantity (side : OptionRight) (l1 l2 : list Position) :
  map right_and_quantity l1 = map right_and_quantity l2 ->
  option_map Quantity (find (has_right side) l1) =
  option_map Quantity (find (has_right side) l2).
Proof.
  revert l2. induction l1 as [|a l1 IH]; intros [|b l2] E;
    try discriminate; [reflexivity|].
  cbn [map] in E.
  assert (Er : Right (Symbol a) = Right (Symbol b))
    by (unfold right_and_quantity in E; congruence).
  assert (Eq : Quantity a = Quantity b)
    by (unfold right_and_quantity in E; congruence).
  assert (Em : map right_and_quantity l1 = map right_and_quantity l2)
    by congruence.
  cbn [find]. unfold has_right at 1 3.
  rewrite Er. destruct (OptionRight_eqb (Right (Symbol b)) side).
  - simpl. now rewrite Eq.
  - now apply IH.
Qed.

(** X9.  The verification reads the right and the quantity of each
    position and nothing else: two groups with the same buying power model
    whose positions agree in right and quantity, position by position, get
    the same result, whatever their strikes and expiries. *)
Theorem X9_verify_reads_right_and_quantity
    (expectedCall expectedPut : Z) (g1 g2 : PositionGroup) :
  BuyingPowerModel g1 = BuyingPowerModel g2 ->
  map right_and_quantity (Positions g1) =
  map right_and_quantity (Positions g2) ->
  verify_expected expectedCall expectedPut g1 =
  verify_expected expectedCall expectedPut g2.
Proof.
  intros Et Em. unfold verify_expected. rewrite Et.
  assert (El : length (Positions g1) = length (Positions g2)).
  { rewrite <- (length_map right_and_quantity (Positions g1)), Em.
    apply length_map. }
  rewrite El.
  pose proof (find_right_and_quantity Call _ _ Em) as Ec.
  pose proof (find_right_and_quantity Put _ _ Em) as Ep.
  destruct (check _ _); [|reflexivity]. cbn [bind].
  destruct (check _ _); [|reflexivity]. cbn [bind].
  destruct (find (has_right Call) (Positions g1)) as [c1|],
           (find (has_right Call) (Positions g2)) as [c2|];
    try discriminate; [|reflexivity].
  destruct (find (has_right Put) (Positions g1)) as [p1|],
           (find (has_right Put) (Positions g2)) as [p2|];
    try discriminate; [|reflexivity].
  simpl in Ec, Ep. injection Ec as Ec. injection Ep as Ep.
  cbn [require bind]. now rewrite Ec, Ep.
Qed.

Lemma X9_verify_reads_right_and_quantity_witness :
  BuyingPowerModel
    (mkPositionGroup OptionStrategyPositionGroupBuyingPowerModel
       [mkPosition (call_at 750 1) 2; mkPosition (put_at 750 1) 2]) =
  BuyingPowerModel
    (mkPositionGroup OptionStrategyPositionGroupBuyingPowerModel
       [mkPosition (call_at 800 5) 2; mkPosition (put_at 700 9) 2]) /\
  map right_and_quantity
    (Positions
       (mkPositionGroup OptionStrategyPositionGroupBuyingPowerModel
          [mkPosition (call_at 750 1) 2; mkPosition (put_at 750 1) 2])) =
  map right_and_quantity
    (Positions
       (mkPositionGroup OptionStrategyPositionGroupBuyingPowerModel
          [mkPosition (call_at 800 5) 2; mkPosition (put_at 700 9) 2])) /\
  verify_expected 2 2
    (mkPositionGroup OptionStrategyPositionGroupBuyingPowerModel
       [mkPosition (call_at 750 1) 2; mkPosition (put_at 750 1) 2]) =
  verify_expected 2 2
    (mkPositionGroup OptionStrategyPositionGroupBuyingPowerModel
       [mkPosition (call_at 800 5) 2; mkPosition (put_at 700 9) 2]).
Proof.
  split; [reflexivity|]. split; [reflexivity|].
  apply X9_verify_reads_right_and_quantity; reflexivity.
Defined.

(** X10.  The order of the positions in the group has no part in the
    verification: two groups with the same buying power model and the same
    positions in any order get the same result. *)
Theorem X10_verify_ignores_position_order
    (expectedCall expectedPut : Z) (g1 g2 : PositionGroup) :
  BuyingPowerModel g1 = BuyingPowerModel g2 ->
  Permutation (Positions g1) (Positions g2) ->
  verify_expected expectedCall expectedPut g1 =
  verify_expected expectedCall expectedPut g2.
Proof.
  destruct g1 as [t1 l1], g2 as [t2 l2]. cbn [BuyingPowerModel Positions].
  intros <- HP. unfold verify_expected. cbn [BuyingPowerModel Positions].
  destruct (check _ _); [|reflexivity]. cbn [bind].
  rewrite <- (Permutation_length HP).
  destruct l1 as [|x [|y [|z l1]]]; try reflexivity.
  apply Permutation_length_2_inv in HP. destruct HP as [->| ->];
    [reflexivity|].
  destruct x as [[rx kx ex] qx], y as [[ry ky ey] qy].
  destruct rx, ry; reflexivity.
Qed.

Lemma X10_verify_ignores_position_order_witness :
  BuyingPowerModel
    (mkPositionGroup OptionStrategyPositionGroupBuyingPowerModel
       [mkPosition (call_at 750 1) 2; mkPosition (put_at 750 1) 3]) =
  BuyingPowerModel
    (mkPositionGroup OptionStrategyPositionGroupBuyingPowerModel
       [mkPosition (put_at 750 1) 3; mkPosition (call_at 750 1) 2]) /\
  Permutation
    (Positions
       (mkPositionGroup OptionStrategyPositionGroupBuyingPowerModel
          [mkPosition (call_at 750 1) 2; mkPosition (put_at 750 1) 3]))
    (Positions
       (mkPositionGroup OptionStrategyPositionGroupBuyingPowerModel
          [mkPosition (put_at 750 1) 3; mkPosition (call_at 750 1) 2])) /\
  verify_expected 2 2
    (mkPositionGroup OptionStrategyPositionGroupBuyingPowerModel
       [mkPosition (call_at 750 1) 2; mkPosition (put_at 750 1) 3]) =
  verify_expected 2 2
    (mkPositionGroup OptionStrategyPositionGroupBuyingPowerModel
       [mkPosition (put_at 750 1) 3; mkPosition (call_at 750 1) 2]).
Proof.
  split; [reflexivity|]. split; [apply perm_swap|].
  apply X10_verify_ignores_position_order; [reflexivity | apply perm_swap].
Defined.

(** * Properties of [OnData] as a whole *)

(** X11.  Straddle file: when [OnData], not invested, places an order, it
    is one purchase of quantity 2 of the straddle at a strike and expiry
    that have a call and a put in the chain.  The next [OnData], invested,
    then looks at the first position group only: if the group passes the
    verification it buys the short straddle of the same strike and expiry
    at quantity 2 and quits, and if not it raises the failure of the
    verification and orders nothing. *)
Theorem X11_straddle_open_then_close
    (self self' : StraddleAlgorithm.State) (chain : OptionChain)
    (groups : list PositionGroup) (acts : list Action) :
  StraddleAlgorithm.OnData self false (Some chain) groups = Ok (self', acts) ->
  acts <> [] ->
  exists k e,
    In (call_at k e) (ChainContracts chain) /\
    In (put_at k e) (ChainContracts chain) /\
    acts = [Buy (OptionStrategies_Straddle k e) 2] /\
    forall g rest chain',
      StraddleAlgorithm.OnData self' true chain' (g :: rest) =
      match verify g with
      | Ok _ =>
          Ok (self', [Buy (OptionStrategies_ShortStraddle k e) 2; Quit])
      | Raise f => Raise (VerificationError f)
      end.
Proof.
  unfold StraddleAlgorithm.OnData at 1. cbn [negb].
  destruct (Straddle.select (UnderlyingPrice chain) (ChainContracts chain))
    as [[k e]|] eqn:E; intros H Hne; inversion H; subst; [|congruence].
  destruct (straddle_select_sound _ _ _ _ E) as [Hc Hq].
  exists k, e. repeat split; trivial.
  intros g rest chain'. unfold StraddleAlgorithm.OnData.
  cbn [negb first_group bind]. now destruct (verify g).
Qed.

Lemma X11_straddle_open_then_close_witness :
  StraddleAlgorithm.OnData (StraddleAlgorithm.mkState None None) false
    (Some (mkOptionChain 100
             [call_at 95 1; put_at 100 2; put_at 95 1; call_at 100 1])) [] =
    Ok (StraddleAlgorithm.mkState
          (Some (OptionStrategies_Straddle 95 1))
          (Some (OptionStrategies_ShortStraddle 95 1)),
        [Buy (OptionStrategies_Straddle 95 1) 2]) /\
  [Buy (OptionStrategies_Straddle 95 1) 2] <> [] /\
  exists k e,
    In (call_at k e)
       (ChainContracts
          (mkOptionChain 100
             [call_at 95 1; put_at 100 2; put_at 95 1; call_at 100 1])) /\
    In (put_at k e)
       (ChainContracts
          (mkOptionChain 100
             [call_at 95 1; put_at 100 2; put_at 95 1; call_at 100 1])) /\
    [Buy (OptionStrategies_Straddle 95 1) 2] =
      [Buy (OptionStrategies_Straddle k e) 2] /\
    forall g rest chain',
      StraddleAlgorithm.OnData
        (StraddleAlgorithm.mkState
           (Some (OptionStrategies_Straddle 95 1))
           (Some (OptionStrategies_ShortStraddle 95 1)))
        true chain' (g :: rest) =
      match verify g with
      | Ok _ =>
          Ok (StraddleAlgorithm.mkState
                (Some (OptionStrategies_Straddle 95 1))
                (Some (OptionStrategies_ShortStraddle 95 1)),
              [Buy (OptionStrategies_ShortStraddle k e) 2; Quit])
      | Raise f => Raise (VerificationError f)
      end.
Proof.
  split; [reflexivity|]. split; [discriminate|].
  apply (X11_straddle_open_then_close
           (StraddleAlgorithm.mkState None None) _ _ []);
    [reflexivity | discriminate].
Defined.

(** X12.  Strangle file: when [OnData], not invested, places an order, it
    is one purchase of quantity 2 of the strangle built from a call and a
    put of the chain with one expiry, the call struck above the put.  The
    next [OnData], invested, buys the short strangle of the same strikes
    and expiry at quantity 2 and quits if the first position group passes
    the verification, and raises its failure without an order if not. *)
Theorem X12_strangle_open_then_close
    (self self' : StrangleAlgorithm.State) (chain : OptionChain)
    (groups : list PositionGroup) (acts : list Action) :
  StrangleAlgorithm.OnData self false (Some chain) groups = Ok (self', acts) ->
  acts <> [] ->
  exists kc kp e,
    In (call_at kc e) (ChainContracts chain) /\
    In (put_at kp e) (ChainContracts chain) /\
    kc > kp /\
    acts = [Buy (OptionStrategies_Strangle kc kp e) 2] /\
    forall g rest chain',
      StrangleAlgorithm.OnData self' true chain' (g :: rest) =
      match verify g with
      | Ok _ =>
          Ok (self', [Buy (OptionStrategies_ShortStrangle kc kp e) 2; Quit])
      | Raise f => Raise (VerificationError f)
      end.
Proof.
  unfold StrangleAlgorithm.OnData at 1. cbn [negb].
  destruct (Strangle.select (UnderlyingPrice chain) (ChainContracts chain))
    as [[c q]|] eqn:E; intros H Hne; inversion H; subst; [|congruence].
  apply strangle_select_Some in E.
  destruct E as (Ic & Iq & Rc & Rq & Ee & Hs & _).
  exists (Strike c), (Strike q), (Expiry c). split; [|split].
  - replace (call_at (Strike c) (Expiry c)) with c; [exact Ic|].
    apply Contract_ext; simpl; congruence.
  - replace (put_at (Strike q) (Expiry c)) with q; [exact Iq|].
    apply Contract_ext; simpl; congruence.
  - split; [exact Hs|]. split; [reflexivity|].
    intros g rest chain'. unfold StrangleAlgorithm.OnData.
    cbn [negb first_group bind]. now destruct (verify g).
Qed.

Lemma X12_strangle_open_then_close_witness :
  StrangleAlgorithm.OnData (StrangleAlgorithm.mkState None None) false
    (Some (mkOptionChain 100
             [call_at 105 1; call_at 110 1; put_at 90 1; put_at 95 1])) [] =
    Ok (StrangleAlgorithm.mkState
          (Some (OptionStrategies_Strangle 110 90 1))
          (Some (OptionStrategies_ShortStrangle 110 90 1)),
        [Buy (OptionStrategies_Strangle 110 90 1) 2]) /\
  [Buy (OptionStrategies_Strangle 110 90 1) 2] <> [] /\
  exists kc kp e,
    In (call_at kc e)
       (ChainContracts
          (mkOptionChain 100
             [call_at 105 1; call_at 110 1; put_at 90 1; put_at 95 1])) /\
    In (put_at kp e)
       (ChainContracts
          (mkOptionChain 100
             [call_at 105 1; call_at 110 1; put_at 90 1; put_at 95 1])) /\
    kc > kp /\
    [Buy (OptionStrategies_Strangle 110 90 1) 2] =
      [Buy (OptionStrategies_Strangle kc kp e) 2] /\
    forall g rest chain',
      StrangleAlgorithm.OnData
        (StrangleAlgorithm.mkState
           (Some (OptionStrategies_Strangle 110 90 1))
           (Some (OptionStrategies_ShortStrangle 110 90 1)))
        true chain' (g :: rest) =
      match verify g with
      | Ok _ =>
          Ok (StrangleAlgorithm.mkState
                (Some (OptionStrategies_Strangle 110 90 1))
                (Some (OptionStrategies_ShortStrangle 110 90 1)),
              [Buy (OptionStrategies_ShortStrangle kc kp e) 2; Quit])
      | Raise f => Raise (VerificationError f)
      end.
Proof.
  split; [reflexivity|]. split; [discriminate|].
  apply (X12_strangle_open_then_close
           (StrangleAlgorithm.mkState None None) _ _ []);
    [reflexivity | discriminate].
Defined.

(** X13.  A portfolio that is invested although the algorithm has not yet
    remembered a closing strategy never gets an order from [OnData] of
    either file.  The method raises [IndexError] when the portfolio has no
    position group; otherwise it verifies the first group and raises the
    failure of the verification when a check fails, and [AttributeError],
    for the attribute that was never assigned, when the verification
    passes. *)
Theorem X13_invested_before_opening
    (s1 : StraddleAlgorithm.State) (s2 : StrangleAlgorithm.State)
    (chain : option OptionChain) (groups : list PositionGroup) :
  StraddleAlgorithm._short_straddle s1 = None ->
  StrangleAlgorithm._short_strangle s2 = None ->
  StraddleAlgorithm.OnData s1 true chain groups =
    match groups with
    | [] => Raise IndexError
    | positionGroup :: _ =>
        match verify positionGroup with
        | Ok _ => Raise AttributeError
        | Raise f => Raise (VerificationError f)
        end
    end /\
  StrangleAlgorithm.OnData s2 true chain groups =
    match groups with
    | [] => Raise IndexError
    | positionGroup :: _ =>
        match verify positionGroup with
        | Ok _ => Raise AttributeError
        | Raise f => Raise (VerificationError f)
        end
    end.
Proof.
  intros H1 H2.
  unfold StraddleAlgorithm.OnData, StrangleAlgorithm.OnData.
  cbn [negb]. rewrite H1, H2.
  destruct groups as [|g rest]; cbn [first_group bind];
    [split; reflexivity|].
  destruct (verify g) as [[]|f]; cbn [lift_failure bind require];
    split; reflexivity.
Qed.

Lemma X13_invested_before_opening_witness :
  StraddleAlgorithm._short_straddle (StraddleAlgorithm.mkState None None) =
    None /\
  StrangleAlgorithm._short_strangle (StrangleAlgorithm.mkState None None) =
    None /\
  StraddleAlgorithm.OnData (StraddleAlgorithm.mkState None None) true None
    [mkPositionGroup OptionStrategyPositionGroupBuyingPowerModel
       [mkPosition (call_at 750 1) 2; mkPosition (put_at 750 1) 2]] =
    match
      [mkPositionGroup OptionStrategyPositionGroupBuyingPowerModel
         [mkPosition (call_at 750 1) 2; mkPosition (put_at 750 1) 2]]
    with
    | [] => Raise IndexError
    | positionGroup :: _ =>
        match verify positionGroup with
        | Ok _ => Raise AttributeError
        | Raise f => Raise (VerificationError f)
        end
    end /\
  StrangleAlgorithm.OnData (StrangleAlgorithm.mkState None None) true None
    [mkPositionGroup OptionStrategyPositionGroupBuyingPowerModel
       [mkPosition (call_at 750 1) 2; mkPosition (put_at 750 1) 2]] =
    match
      [mkPositionGroup OptionStrategyPositionGroupBuyingPowerModel
         [mkPosition (call_at 750 1) 2; mkPosition (put_at 750 1) 2]]
    with
    | [] => Raise IndexError
    | positionGroup :: _ =>
        match verify positionGroup with
        | Ok _ => Raise AttributeError
        | Raise f => Raise (VerificationError f)
        end
    end.
Proof.
  split; [reflexivity|]. split; [reflexivity|].
  apply X13_invested_before_opening; reflexivity.
Defined.

(** X14.  Whatever the chain, the groups the straddle selection forms are
    consecutive pieces of the candidate sequence: in order they make up
    the sequence, none is empty, and the contracts of a group share one
    strike and one expiry. *)
Theorem X14_straddle_groups_are_runs (price : Z) (chain : list Contract) :
  concat (Straddle.groupedContracts price chain) = contracts price chain /\
  Forall (fun g => g <> [] /\
                   exists k e, Forall (fun x => Strike x = k /\ Expiry x = e) g)
         (Straddle.groupedContracts price chain).
Proof.
  unfold Straddle.groupedContracts. split.
  - apply groupby_concat. exact pair_eqb_eq.
  - pose proof (groupby_groups pair_eqb strike_expiry pair_eqb_eq
                  (contracts price chain)) as G.
    rewrite Forall_forall in *. intros g Hg.
    apply in_map_iff in Hg. destruct Hg as [[[k e] g'] [Eg Hin]].
    cbn [snd] in Eg. subst g'.
    destruct (G _ Hin) as [Hne Hk]. cbn [fst snd] in Hne, Hk.
    split; [exact Hne|]. exists k, e.
    rewrite Forall_forall in *. intros x Hx.
    specialize (Hk x Hx). unfold strike_expiry in Hk.
    injection Hk as K1 K2. now split.
Qed.
